(** * URI templates (RFC 6570, level 4): the parser and the expander of [uri.go]

    A shallow embedding of package [uri]: Go strings are byte strings
    ([string], one [ascii] per byte), a [bytes.Buffer] is the string it
    holds, a function that returns [(x, err)] returns a pair whose second
    component is an [option error], and a run-time panic is an outcome of
    its own ([Panic]). *)

From Stdlib Require Import String Ascii List NArith ZArith Bool Lia.
From Equations Require Import Equations.
Import ListNotations.

Local Open Scope list_scope.
Local Open Scope string_scope.

(** ** Outcomes of a Go call: a value, or a run-time panic *)

Inductive panic : Type :=
| IndexOutOfRange      (* runtime error: index out of range *)
| NilDereference       (* runtime error: nil pointer dereference *)
| ReflectZeroValue     (* reflect: call of a method on the zero Value *)
| ReflectUnexported.   (* reflect: Interface() on an unexported field *)

Inductive go (A : Type) : Type :=
| Ret (a : A)
| Panic (p : panic).

Arguments Ret {A} a.
Arguments Panic {A} p.

Definition bind {A B : Type} (m : go A) (k : A -> go B) : go B :=
  match m with
  | Ret a => k a
  | Panic p => Panic p
  end.

Notation "x <- m ;; k" := (bind m (fun x => k))
  (at level 61, m at next level, right associativity).
Notation "' pat <- m ;; k" := (bind m (fun x => match x with pat => k end))
  (at level 61, pat pattern, m at next level, right associativity).

(** The error values the package creates.  [ErrNumSyntax] and [ErrNumRange]
    are the two [*strconv.NumError]s of [strconv.ParseInt]. *)
Inductive error : Type :=
| ErrUnexpectedClose                (* "unexpected }" *)
| ErrMalformed                      (* "malformed template" *)
| ErrMultipleColons                 (* "multiple colons in same term" *)
| ErrInvalidName (name : string)    (* "not a valid name: " + name *)
| ErrExplodeAndPrefix    (* "both explode and prefix modifers on same term" *)
| ErrNumSyntax (s : string)
| ErrNumRange (s : string)
| ErrTruncateMap                    (* "cannot truncate a map expansion" *)
| ErrExpectedMap.
    (* "expected map[string]interface{}, struct, or pointer to struct." *)

(** ** The pieces of package [strings] and of string indexing that are used *)

Module Strings.

Definition byte_val (c : ascii) : N := N_of_ascii c.

(** [s[:n]] for [n <= len(s)] (the callers check the bound). *)
Fixpoint take (n : nat) (s : string) : string :=
  match n, s with
  | S n', String c s' => String c (take n' s')
  | _, _ => EmptyString
  end.

(** [strings.Contains(s, string(c))]. *)
Fixpoint contains_byte (c : ascii) (s : string) : bool :=
  match s with
  | EmptyString => false
  | String d s' => Ascii.eqb c d || contains_byte c s'
  end.

(** [strings.Split(s, string(c))]: always at least one segment. *)
Fixpoint Split (c : ascii) (s : string) : list string :=
  match s with
  | EmptyString => [EmptyString]
  | String d s' =>
      match Split c s' with
      | seg :: segs =>
          if Ascii.eqb c d then EmptyString :: seg :: segs
          else String d seg :: segs
      | [] => [EmptyString]
      end
  end.

(** [strings.HasSuffix(s, string(c))] and, when it holds, [s[:len(s)-1]]. *)
Fixpoint strip_suffix_byte (c : ascii) (s : string) : option string :=
  match s with
  | EmptyString => None
  | String d EmptyString => if Ascii.eqb c d then Some EmptyString else None
  | String d s' =>
      match strip_suffix_byte c s' with
      | Some r => Some (String d r)
      | None => None
      end
  end.

End Strings.

(** ** UTF-8 decoding, as [unicode/utf8.DecodeRune] does it

    The regular expressions of the package run over runes: Go's [regexp]
    reads its input one UTF-8 sequence at a time, and a byte that starts no
    well-formed sequence is read as U+FFFD of width 1. *)

Module Utf8.

Definition RuneError : N := 65533.

Definition in_range (lo hi b : N) : bool := (lo <=? b)%N && (b <=? hi)%N.

(** A continuation byte of a later position. *)
Definition cont (b : N) : bool := in_range 128 191 b.

(** The rune at the head of [s] and the number of bytes it takes;
    [(RuneError, 0)] on the empty string. *)
Definition DecodeRune (s : string) : N * nat :=
  match s with
  | EmptyString => (RuneError, 0)
  | String c0 s1 =>
      let b0 := Strings.byte_val c0 in
      if (b0 <? 128)%N then (b0, 1)
      else if in_range 194 223 b0 then
        match s1 with
        | String c1 _ =>
            let b1 := Strings.byte_val c1 in
            if cont b1 then (((b0 mod 32) * 64 + b1 mod 64)%N, 2)
            else (RuneError, 1)
        | _ => (RuneError, 1)
        end
      else if in_range 224 239 b0 then
        match s1 with
        | String c1 (String c2 _) =>
            let b1 := Strings.byte_val c1 in
            let b2 := Strings.byte_val c2 in
            let lo := if (b0 =? 224)%N then 160%N else 128%N in
            let hi := if (b0 =? 237)%N then 159%N else 191%N in
            if in_range lo hi b1 && cont b2
            then (((b0 mod 16) * 4096 + (b1 mod 64) * 64 + b2 mod 64)%N, 3)
            else (RuneError, 1)
        | _ => (RuneError, 1)
        end
      else if in_range 240 244 b0 then
        match s1 with
        | String c1 (String c2 (String c3 _)) =>
            let b1 := Strings.byte_val c1 in
            let b2 := Strings.byte_val c2 in
            let b3 := Strings.byte_val c3 in
            let lo := if (b0 =? 240)%N then 144%N else 128%N in
            let hi := if (b0 =? 244)%N then 143%N else 191%N in
            if in_range lo hi b1 && cont b2 && cont b3
            then (((b0 mod 8) * 262144 + (b1 mod 64) * 4096
                   + (b2 mod 64) * 64 + b3 mod 64)%N, 4)
            else (RuneError, 1)
        | _ => (RuneError, 1)
        end
      else (RuneError, 1)
  end.

(** [s[n:]]. *)
Fixpoint drop (n : nat) (s : string) : string :=
  match n, s with
  | S n', String _ s' => drop n' s'
  | _, _ => s
  end.

Lemma length_drop (n : nat) (s : string) :
  String.length (drop n s) <= String.length s.
Proof.
  revert s. induction n as [|n IH]; intros [|c s]; simpl; try lia.
  specialize (IH s). lia.
Qed.

(** The string cut into its runes' byte sequences, in order
    ([for len(s) > 0 { _, w := DecodeRune(s); ...; s = s[w:] }]). *)
Equations? runes (s : string) : list string by wf (String.length s) lt :=
  runes EmptyString := [];
  runes (String c s') :=
    let w := snd (DecodeRune (String c s')) in
    Strings.take w (String c s') :: runes (drop (Nat.pred w) s').
Proof.
  clearbody w. pose proof (length_drop (Nat.pred w) s'). simpl. lia.
Qed.

(** The first [n] characters (runes) of [s]. *)
Definition prefix_chars (n : nat) (s : string) : string :=
  String.concat "" (firstn n (runes s)).

Definition count_chars (s : string) : nat := List.length (runes s).

End Utf8.

(** ** The regular expressions of the package

    [unreserved] and [reserved] are negated one-rune classes; [validname] is
    anchored at both ends. *)

Module Regexp.

(** [A-Za-z0-9\-._~] *)
Definition unreserved_class (r : N) : bool :=
  Utf8.in_range 65 90 r || Utf8.in_range 97 122 r || Utf8.in_range 48 57 r
  || (r =? 45)%N || (r =? 46)%N || (r =? 95)%N || (r =? 126)%N.

(** [A-Za-z0-9\-._~:/?#[\]@!$&'()*+,;=] *)
Definition reserved_class (r : N) : bool :=
  unreserved_class r
  || (r =? 58)%N || (r =? 47)%N || (r =? 63)%N || (r =? 35)%N
  || (r =? 91)%N || (r =? 93)%N || (r =? 64)%N || (r =? 33)%N
  || (r =? 36)%N || (r =? 38)%N || (r =? 39)%N || (r =? 40)%N
  || (r =? 41)%N || (r =? 42)%N || (r =? 43)%N || (r =? 44)%N
  || (r =? 59)%N || (r =? 61)%N.

(** [re.ReplaceAllFunc(src, repl)] for [re = [^class]]: every rune outside
    [class] is a match of its own, replaced by [repl] of its bytes. *)
Equations? ReplaceAllFunc (class : N -> bool) (repl : string -> string)
    (src : string) : string by wf (String.length src) lt :=
  ReplaceAllFunc class repl EmptyString := EmptyString;
  ReplaceAllFunc class repl (String c s') :=
    let rw := Utf8.DecodeRune (String c s') in
    let m := Strings.take (snd rw) (String c s') in
    (if class (fst rw) then m else repl m)
    ++ ReplaceAllFunc class repl (Utf8.drop (Nat.pred (snd rw)) s').
Proof.
  match goal with |- String.length (Utf8.drop ?n s') < _ =>
    pose proof (Utf8.length_drop n s') end.
  simpl. lia.
Qed.

Definition is_hex (c : ascii) : bool :=
  let b := Strings.byte_val c in
  Utf8.in_range 48 57 b || Utf8.in_range 65 70 b || Utf8.in_range 97 102 b.

(** [[A-Za-z0-9_\.]] *)
Definition name_class (c : ascii) : bool :=
  let b := Strings.byte_val c in
  Utf8.in_range 65 90 b || Utf8.in_range 97 122 b || Utf8.in_range 48 57 b
  || (b =? 95)%N || (b =? 46)%N.

(** [([A-Za-z0-9_\.]|%[0-9A-Fa-f][0-9A-Fa-f])*$] *)
Fixpoint name_units (s : string) : bool :=
  match s with
  | EmptyString => true
  | String c s' =>
      if name_class c then name_units s'
      else if Ascii.eqb c "%" then
        match s' with
        | String h1 (String h2 s'') => is_hex h1 && is_hex h2 && name_units s''
        | _ => false
        end
      else false
  end.

(** [validname.MatchString(s)] for
    [^([A-Za-z0-9_\.]|%[0-9A-Fa-f][0-9A-Fa-f])+$]. *)
Definition validname_MatchString (s : string) : bool :=
  match s with
  | EmptyString => false
  | _ => name_units s
  end.

End Regexp.

(** ** Percent-encoding ([pctEncode], [escape]) *)

Definition hex : string := "0123456789ABCDEF".

(** [hex[n]]; the two indices [pctEncode] uses, [b/16] and [b%16] of a byte,
    are below 16 (lemma [hex_index_in_range]). *)
Definition hex_at (n : N) : ascii :=
  match String.get (N.to_nat n) hex with
  | Some c => c
  | None => "000"%char
  end.

Fixpoint pctEncode (src : string) : string :=
  match src with
  | EmptyString => EmptyString
  | String c src' =>
      let b := Strings.byte_val c in
      String "%" (String (hex_at (b / 16)) (String (hex_at (b mod 16))
        (pctEncode src')))
  end.

Definition escape (s : string) (allowReserved : bool) : string :=
  if allowReserved
  then Regexp.ReplaceAllFunc Regexp.reserved_class pctEncode s
  else Regexp.ReplaceAllFunc Regexp.unreserved_class pctEncode s.

(** ** [strconv.ParseInt(s, 10, 0)]

    Base 10, result of the size of [int], taken to be 64 bits: an optional
    sign, then one or more decimal digits.  [ParseUint] reads the digits
    from the left and stops at the first byte that is no digit (a syntax
    error) or at the first digit with which the magnitude leaves 64 bits
    (a range error, with the largest value); [ParseInt] turns a magnitude
    outside the range of [int64] into a range error that returns the
    nearest bound. *)

Module Strconv.

Definition digit_val (c : ascii) : option Z :=
  let b := Strings.byte_val c in
  if Utf8.in_range 48 57 b then Some (Z.of_N b - 48)%Z else None.

(** What [ParseUint] returns: a value, a syntax error (with 0), or a range
    error (with [maxUint64]). *)
Inductive unum : Type :=
| UOk (n : Z)
| USyntax
| URange.

Definition maxUint64 : Z := (2 ^ 64 - 1)%Z.

(** The smallest number whose product with the base leaves 64 bits. *)
Definition cutoff10 : Z := (maxUint64 / 10 + 1)%Z.

(** The loop of [ParseUint] over the bytes of [s], from the value [n]. *)
Fixpoint digits (n : Z) (s : string) : unum :=
  match s with
  | EmptyString => UOk n
  | String c s' =>
      match digit_val c with
      | None => USyntax
      | Some d =>
          if (cutoff10 <=? n)%Z then URange
          else
            let n1 := (n * 10 + d)%Z in
            if (maxUint64 <? n1)%Z then URange else digits n1 s'
      end
  end.

Definition ParseUint (s : string) : unum :=
  match s with
  | EmptyString => USyntax
  | _ => digits 0%Z s
  end.

Definition cutoff : Z := (2 ^ 63)%Z.

Definition ParseInt (s : string) : Z * option error :=
  match s with
  | EmptyString => (0%Z, Some (ErrNumSyntax s))
  | String c s' =>
      let neg := Ascii.eqb c "-" in
      let body := if Ascii.eqb c "+" || neg then s' else s in
      match ParseUint body with
      | USyntax => (0%Z, Some (ErrNumSyntax s))
      | r =>
          let un := match r with UOk n => n | _ => maxUint64 end in
          if negb neg && (cutoff <=? un)%Z
          then ((cutoff - 1)%Z, Some (ErrNumRange s))
          else if neg && (cutoff <? un)%Z
          then ((- cutoff)%Z, Some (ErrNumRange s))
          else ((if neg then - un else un)%Z, None)
      end
  end.

End Strconv.

(** ** The parsed template *)

Record templateTerm : Type := mkTerm {
  name : string;
  explode : bool;
  truncate : Z
}.

Record templatePart : Type := mkPart {
  raw : string;
  terms : list templateTerm;
  first : string;
  sep : string;
  named : bool;
  ifemp : string;
  allowReserved : bool
}.

Record Template : Type := mkTemplate {
  Template_raw : string;
  parts : list templatePart
}.

(** The zero values of the two struct types. *)
Definition zeroTerm : templateTerm := mkTerm "" false 0.
Definition zeroPart : templatePart := mkPart "" [] "" "" false "" false.

Definition set_raw (s : string) (p : templatePart) : templatePart :=
  mkPart s (terms p) (first p) (sep p) (named p) (ifemp p) (allowReserved p).
Definition set_terms (ts : list templateTerm) (p : templatePart)
    : templatePart :=
  mkPart (raw p) ts (first p) (sep p) (named p) (ifemp p) (allowReserved p).

(** [l[i] = f(l[i])]: an index past the end panics. *)
Fixpoint store {A : Type} (i : nat) (f : A -> A) (l : list A) : go (list A) :=
  match l, i with
  | [], _ => Panic IndexOutOfRange
  | x :: l', O => Ret (f x :: l')
  | x :: l', S i' => l'' <- store i' f l' ;; Ret (x :: l'')
  end.

(** ** The parser *)

Definition parseTerm (term : string) : templateTerm * option error :=
  let '(explode, term) :=
    match Strings.strip_suffix_byte "*" term with
    | Some t => (true, t)
    | None => (false, term)
    end in
  let '(name, truncate, err) :=
    match Strings.Split ":" term with
    | [_] => (term, 0%Z, None)
    | [n; num] => let '(parsed, e) := Strconv.ParseInt num in (n, parsed, e)
    | _ => (EmptyString, 0%Z, Some ErrMultipleColons)
    end in
  let err :=
    if negb (Regexp.validname_MatchString name)
    then Some (ErrInvalidName name) else err in
  let err :=
    if explode && (0 <? truncate)%Z then Some ErrExplodeAndPrefix else err in
  (mkTerm name explode truncate, err).

(** The loop of [parseExpression] over [rawterms], from index [i] on. *)
Fixpoint parseTerms (i : nat) (rawterms : list string)
    (terms : list templateTerm) : go (list templateTerm * option error) :=
  match rawterms with
  | [] => Ret (terms, None)
  | raw :: rest =>
      let '(t, err) := parseTerm raw in
      terms' <- store i (fun _ => t) terms ;;
      match err with
      | Some e => Ret (terms', Some e)
      | None => parseTerms (S i) rest terms'
      end
  end.

(** The operator switch of [parseExpression] on [expression[0]]: the part
    with its operator fields set, and whether the byte is consumed. *)
Definition operator (c : ascii) : templatePart * bool :=
  if Ascii.eqb c "+" then (mkPart "" [] "" "," false "" true, true)
  else if Ascii.eqb c "." then (mkPart "" [] "." "." false "" false, true)
  else if Ascii.eqb c "/" then (mkPart "" [] "/" "/" false "" false, true)
  else if Ascii.eqb c ";" then (mkPart "" [] ";" ";" true "" false, true)
  else if Ascii.eqb c "?" then (mkPart "" [] "?" "&" true "=" false, true)
  else if Ascii.eqb c "&" then (mkPart "" [] "&" "&" true "=" false, true)
  else if Ascii.eqb c "#" then (mkPart "" [] "#" "," false "" true, true)
  else (mkPart "" [] "" "," false "" false, false).

Definition parseExpression (expression : string)
    : go (templatePart * option error) :=
  match expression with
  | EmptyString => Panic IndexOutOfRange
  | String c rest =>
      let '(result, consumed) := operator c in
      let expression := if consumed then rest else expression in
      let rawterms := Strings.Split "," expression in
      '(ts, err) <- parseTerms 0 rawterms
                      (repeat zeroTerm (List.length rawterms)) ;;
      Ret (set_terms ts result, err)
  end.

(** The loop of [Parse] over [split], from index [i] on. *)
Fixpoint parseLoop (i : nat) (split : list string)
    (parts : list templatePart) : go (list templatePart * option error) :=
  match split with
  | [] => Ret (parts, None)
  | s :: rest =>
      if Nat.eqb i 0 then
        if Strings.contains_byte "}" s then Ret (parts, Some ErrUnexpectedClose)
        else
          parts' <- store i (set_raw s) parts ;;
          parseLoop (S i) rest parts'
      else
        match Strings.Split "}" s with
        | [expression; lit] =>
            '(part, err) <- parseExpression expression ;;
            parts1 <- store (i * 2 - 1) (fun _ => part) parts ;;
            match err with
            | Some e => Ret (parts1, Some e)
            | None =>
                parts2 <- store (i * 2) (set_raw lit) parts1 ;;
                parseLoop (S i) rest parts2
            end
        | _ => Ret (parts, Some ErrMalformed)
        end
  end.

(** [Parse]: the template pointer ([None] is [nil]) and the error. *)
Definition Parse (raw : string) : go (option Template * option error) :=
  let split := Strings.Split "{" raw in
  let parts := repeat zeroPart (List.length split * 2 - 1) in
  '(parts', err) <- parseLoop 0 split parts ;;
  match err with
  | Some e => Ret (None, Some e)
  | None => Ret (Some (mkTemplate raw parts'), None)
  end.

(** ** Values of type [interface{}]

    The dynamic types the code tells apart: [nil], [string],
    [[]interface{}], [map[string]interface{}], a struct, a pointer ([None]
    is a nil pointer), and every other type ([VOther], which carries the
    text that identifies the value).  A map is the list of its entries in
    the order in which [range] visits them in the run that is modelled; a
    value is a finite tree, so a pointer never leads back to itself. *)

Record structField (V : Type) : Type := mkField {
  fieldName : string;
  fieldTag : string;
  fieldExported : bool;
  fieldValue : V
}.
Arguments mkField {V} _ _ _ _.
Arguments fieldName {V} _.
Arguments fieldTag {V} _.
Arguments fieldExported {V} _.
Arguments fieldValue {V} _.

#[local] Set Warnings "-register-all".

Inductive value : Type :=
| VNil
| VString (s : string)
| VArray (a : list value)
| VMap (m : list (string * value))
| VStruct (fields : list (structField value))
| VPtr (p : option value)
| VOther (text : string).

Definition gomap : Type := list (string * value).

(** [m[k]] with the comma-ok form. *)
Fixpoint map_get (k : string) (m : gomap) : option value :=
  match m with
  | [] => None
  | (k', v) :: m' => if String.eqb k k' then Some v else map_get k m'
  end.

(** [m[k] = v]. *)
Fixpoint map_set (k : string) (v : value) (m : gomap) : gomap :=
  match m with
  | [] => [(k, v)]
  | (k', v') :: m' =>
      if String.eqb k k' then (k, v) :: m' else (k', v') :: map_set k v m'
  end.

(** The functions of the Go library whose result depends on more than the
    model holds: [fmt.Sprintf("%v", v)], [reflect.StructTag.Get] and
    [strings.TrimSpace]. *)
Record Runtime : Type := mkRuntime {
  Sprintf_v : value -> string;
  StructTag_Get : string -> string -> string;
  TrimSpace : string -> string
}.

Section Expansion.

Context (rt : Runtime).

(** *** [struct2map] *)

Definition fieldKey (f : structField value) : string :=
  let tag := fieldTag f in
  let name :=
    if Strings.contains_byte ":" tag then StructTag_Get rt tag "uri"
    else TrimSpace rt tag in
  if Nat.eqb (String.length name) 0 then fieldName f else name.

(** The loop over the fields; [Interface()] panics on an unexported one. *)
Fixpoint fields2map (fields : list (structField value)) (m : gomap)
    : go gomap :=
  match fields with
  | [] => Ret m
  | f :: rest =>
      if fieldExported f
      then fields2map rest (map_set (fieldKey f) (fieldValue f) m)
      else Panic ReflectUnexported
  end.

(** [(m, true)] is [Some m] and [(nil, false)] is [None].  [Type()] of
    the zero [reflect.Value] of [nil] panics, and so does [Interface()]
    of the [Elem()] of a nil pointer. *)
Fixpoint struct2map (v : value) : go (option gomap) :=
  match v with
  | VNil => Panic ReflectZeroValue
  | VPtr None => Panic ReflectZeroValue
  | VPtr (Some v') => struct2map v'
  | VStruct fields => m <- fields2map fields [] ;; Ret (Some m)
  | _ => Ret None
  end.

(** *** The expander; a [bytes.Buffer] is the string it holds *)

Definition expandName (t : templatePart) (buf : string) (name : string)
    (empty : bool) : string :=
  if named t then
    let buf := buf ++ name in
    if empty then buf ++ ifemp t else buf ++ "="
  else buf.

(** [if len(s) > term.truncate && term.truncate > 0 { s = s[:term.truncate]
    }] *)
Definition truncated (term : templateTerm) (s : string) : string :=
  if (truncate term <? Z.of_nat (String.length s))%Z && (0 <? truncate term)%Z
  then Strings.take (Z.to_nat (truncate term)) s
  else s.

Definition expandString (t : templatePart) (buf : string)
    (term : templateTerm) (s : string) : string :=
  let s := truncated term s in
  let buf := expandName t buf (name term) (Nat.eqb (String.length s) 0) in
  buf ++ escape s (allowReserved t).

(** The string of an element of a list or a map
    ([switch v := value.(type) { case string: ...; default: ... }]). *)
Definition elemString (v : value) : string :=
  match v with
  | VString s => s
  | _ => Sprintf_v rt v
  end.

Fixpoint expandArrayLoop (t : templatePart) (term : templateTerm)
    (i : nat) (a : list value) (buf : string) : string :=
  match a with
  | [] => buf
  | value :: rest =>
      let buf :=
        if explode term && Nat.ltb 0 i then buf ++ sep t
        else if Nat.ltb 0 i then buf ++ "," else buf in
      let s := truncated term (elemString value) in
      let buf :=
        if named t && explode term
        then expandName t buf (name term) (Nat.eqb (String.length s) 0)
        else buf in
      expandArrayLoop t term (S i) rest (buf ++ escape s (allowReserved t))
  end.

Definition expandArray (t : templatePart) (buf : string)
    (term : templateTerm) (a : list value) : string :=
  if Nat.eqb (List.length a) 0 then buf
  else
    let buf :=
      if negb (explode term) then expandName t buf (name term) false
      else buf in
    expandArrayLoop t term 0 a buf.

Fixpoint expandMapLoop (t : templatePart) (term : templateTerm)
    (firstLen : nat) (m : gomap) (buf : string) : string :=
  match m with
  | [] => buf
  | (k, value) :: rest =>
      let buf :=
        if negb (Nat.eqb firstLen (String.length buf)) then
          if explode term then buf ++ sep t else buf ++ ","
        else buf in
      let s := elemString value in
      let buf :=
        if explode term
        then (buf ++ escape k (allowReserved t)) ++ "="
             ++ escape s (allowReserved t)
        else (buf ++ escape k (allowReserved t)) ++ ","
             ++ escape s (allowReserved t) in
      expandMapLoop t term firstLen rest buf
  end.

Definition expandMap (t : templatePart) (buf : string)
    (term : templateTerm) (m : gomap) : string :=
  if Nat.eqb (List.length m) 0 then buf
  else
    let buf :=
      if negb (explode term)
      then expandName t buf (name term) (Nat.eqb (List.length m) 0)
      else buf in
    expandMapLoop t term (String.length buf) m buf.

(** One turn of the loop of [templatePart.expand], for a term whose name
    the environment holds: the buffer after it and the error that leaves
    the function, if any. *)
Definition expandValue (t : templatePart) (firstLen : nat)
    (term : templateTerm) (value : value) (buf : string)
    : go (string * option error) :=
  let buf :=
    if negb (Nat.eqb (String.length buf) firstLen) then buf ++ sep t
    else buf in
  match value with
  | VString v => Ret (expandString t buf term v, None)
  | VArray v => Ret (expandArray t buf term v, None)
  | VMap v =>
      if (0 <? truncate term)%Z then Ret (buf, Some ErrTruncateMap)
      else Ret (expandMap t buf term v, None)
  | _ =>
      r <- struct2map value ;;
      match r with
      | Some m =>
          if (0 <? truncate term)%Z then Ret (buf, Some ErrTruncateMap)
          else Ret (expandMap t buf term m, None)
      | None => Ret (expandString t buf term (Sprintf_v rt value), None)
      end
  end.

(** The loop of [templatePart.expand] over the terms. *)
Fixpoint expandTerms (t : templatePart) (firstLen : nat)
    (ts : list templateTerm) (values : gomap) (buf : string)
    : go (string * option error) :=
  match ts with
  | [] => Ret (buf, None)
  | term :: rest =>
      match map_get (name term) values with
      | None => expandTerms t firstLen rest values buf
      | Some value =>
          '(buf', err) <- expandValue t firstLen term value buf ;;
          match err with
          | Some e => Ret (buf', Some e)
          | None => expandTerms t firstLen rest values buf'
          end
      end
  end.

(** [templatePart.expand]: the buffer after the call and the error. *)
Definition expand (t : templatePart) (buf : string) (values : gomap)
    : go (string * option error) :=
  if Nat.ltb 0 (String.length (raw t)) then Ret (buf ++ raw t, None)
  else
    let zeroLen := String.length buf in
    let buf := buf ++ first t in
    let firstLen := String.length buf in
    '(buf', err) <- expandTerms t firstLen (terms t) values buf ;;
    match err with
    | Some e => Ret (buf', Some e)
    | None =>
        if Nat.eqb (String.length buf') firstLen
        then Ret (Strings.take zeroLen buf', None)
        else Ret (buf', None)
    end.

(** The loop of [Template.Expand] over the parts: the string and the
    error that the method returns. *)
Fixpoint expandParts (ps : list templatePart) (buf : string)
    (values : gomap) : go (string * option error) :=
  match ps with
  | [] => Ret (buf, None)
  | p :: rest =>
      '(buf', err) <- expand p buf values ;;
      match err with
      | Some e => Ret (EmptyString, Some e)
      | None => expandParts rest buf' values
      end
  end.

(** [Template.Expand]; the call of itself on the map of a struct is
    unfolded. *)
Definition Template_Expand (t : Template) (value : value)
    : go (string * option error) :=
  match value with
  | VMap values => expandParts (parts t) EmptyString values
  | _ =>
      r <- struct2map value ;;
      match r with
      | None => Ret (EmptyString, Some ErrExpectedMap)
      | Some m => expandParts (parts t) EmptyString m
      end
  end.

(** The package-level [Expand]: parse, copy the map, expand. *)
Definition Expand (path : string) (expansions : gomap)
    : go (string * option error) :=
  '(template, err) <- Parse path ;;
  match err, template with
  | Some e, _ => Ret (EmptyString, Some e)
  | None, Some t =>
      let values := fold_left (fun m kv => map_set (fst kv) (snd kv) m)
                      expansions [] in
      Template_Expand t (VMap values)
  | None, None => Panic ReflectZeroValue
  end.

(** *** Terms that render nothing *)

(** The string form of a value that [templatePart.expand] renders as a
    scalar: a string, or a value of a type that is no list, no map and no
    struct behind any number of pointers. *)
Definition scalarForm (v : value) : option string :=
  match v with
  | VString s => Some s
  | VArray _ => None
  | VMap _ => None
  | _ =>
      match struct2map v with
      | Ret None => Some (Sprintf_v rt v)
      | _ => None
      end
  end.

(** A term that leaves the buffer of its expression as it is: absent from
    the environment, or present with an empty list, or with an empty map
    (or a struct without fields) when the term has no truncation length,
    or with an empty scalar when the expression has no named pairs. *)
Definition vacant (t : templatePart) (values : gomap) (term : templateTerm)
    : bool :=
  match map_get (name term) values with
  | None => true
  | Some (VString s) => Nat.eqb (String.length s) 0 && negb (named t)
  | Some (VArray a) => Nat.eqb (List.length a) 0
  | Some (VMap m) => Nat.eqb (List.length m) 0 && (truncate term <=? 0)%Z
  | Some v =>
      match struct2map v with
      | Ret (Some m) => Nat.eqb (List.length m) 0 && (truncate term <=? 0)%Z
      | Ret None =>
          Nat.eqb (String.length (Sprintf_v rt v)) 0 && negb (named t)
      | Panic _ => false
      end
  end.

End Expansion.

(** ** The specification's side of the comparisons *)

(** The specification's side of the comparison: the two sets of bytes that
    stay as they are, the triplet of a byte, and the operator table. *)
Module Spec.

Definition unreserved_set : string :=
  "ABCDEFGHIJKLMNOPQRSTUVWXYZabcdefghijklmnopqrstuvwxyz0123456789-._~".

Definition reserved_extra : string := ":/?#[]@!$&'()*+,;=".

Definition allowed (reservedAllowed : bool) (c : ascii) : bool :=
  Strings.contains_byte c unreserved_set
  || (reservedAllowed && Strings.contains_byte c reserved_extra).

(** The upper-case hexadecimal digit of [d < 16]. *)
Definition upper_hex_digit (d : N) : ascii :=
  ascii_of_N (if (d <? 10)%N then 48 + d else 55 + d).

(** [%] and the two upper-case hexadecimal digits of the byte. *)
Definition triplet (c : ascii) : string :=
  let b := Strings.byte_val c in
  String "%" (String (upper_hex_digit (b / 16))
    (String (upper_hex_digit (b mod 16)) EmptyString)).

Fixpoint encode (reservedAllowed : bool) (s : string) : string :=
  match s with
  | EmptyString => EmptyString
  | String c s' =>
      (if allowed reservedAllowed c then String c EmptyString else triplet c)
      ++ encode reservedAllowed s'
  end.

Inductive operator : Type :=
| Simple | Plus | Dot | Slash | Semicolon | Query | Ampersand | Hash.

(** The operator that the first byte of an expression body selects. *)
Definition operator_of (body : string) : operator :=
  match body with
  | EmptyString => Simple
  | String c _ =>
      if Ascii.eqb c "+" then Plus
      else if Ascii.eqb c "." then Dot
      else if Ascii.eqb c "/" then Slash
      else if Ascii.eqb c ";" then Semicolon
      else if Ascii.eqb c "?" then Query
      else if Ascii.eqb c "&" then Ampersand
      else if Ascii.eqb c "#" then Hash
      else Simple
  end.

Record row : Type := mkRow {
  prefix : string;
  separator : string;
  namedPairs : bool;
  emptyText : option string;   (* [None]: the column does not apply *)
  reservedAllowed : bool
}.

Definition table (o : operator) : row :=
  match o with
  | Simple    => mkRow ""  "," false None      false
  | Plus      => mkRow ""  "," false None      true
  | Dot       => mkRow "." "." false None      false
  | Slash     => mkRow "/" "/" false None      false
  | Semicolon => mkRow ";" ";" true  (Some "") false
  | Query     => mkRow "?" "&" true  (Some "=") false
  | Ampersand => mkRow "&" "&" true  (Some "=") false
  | Hash      => mkRow "#" "," false None      true
  end.

End Spec.

(** A decimal integer as the specification words it: an optional sign, one
    or more decimal digits, a value that fits 64 bits. *)
Module SpecInt.

Definition is_digit (c : ascii) : bool :=
  Utf8.in_range 48 57 (Strings.byte_val c).

Definition digit_value (c : ascii) : Z := (Z.of_N (Strings.byte_val c) - 48)%Z.

Definition decimal_from (acc : Z) (ds : string) : Z :=
  fold_left (fun a c => (a * 10 + digit_value c)%Z)
    (list_ascii_of_string ds) acc.

Definition unsigned_decimal (ds : string) : option Z :=
  if Nat.ltb 0 (String.length ds)
     && forallb is_digit (list_ascii_of_string ds)
  then Some (decimal_from 0 ds) else None.

Definition decimal_int (s : string) : option Z :=
  let '(neg, ds) :=
    match s with
    | String c ds =>
        if Ascii.eqb c "-" then (true, ds)
        else if Ascii.eqb c "+" then (false, ds)
        else (false, s)
    | EmptyString => (false, s)
    end in
  match unsigned_decimal ds with
  | Some u =>
      let v := if neg then (- u)%Z else u in
      if ((- 2 ^ 63 <=? v) && (v <=? 2 ^ 63 - 1))%Z then Some v else None
  | None => None
  end.

End SpecInt.

(** ** Auxiliary definitions of the properties *)

(** What [ReplaceAllFunc] with [pctEncode] amounts to, byte by byte. *)
Fixpoint bytewise (keep : ascii -> bool) (s : string) : string :=
  match s with
  | EmptyString => EmptyString
  | String c s' =>
      (if keep c then String c EmptyString
       else pctEncode (String c EmptyString))
      ++ bytewise keep s'
  end.

(** The term specification without its explode modifier. *)
Definition termBody (term : string) : string :=
  match Strings.strip_suffix_byte "*" term with
  | Some t => t
  | None => term
  end.

(** A segment after an opening brace whose expression body is empty. *)
Definition emptyBody (s : string) : bool :=
  match Strings.Split "}" s with
  | [EmptyString; _] => true
  | _ => false
  end.

(** A runtime for the examples: [%v] of a [VOther] is the text it carries
    and of a string the string; no tag has a [uri] key, and a tag without
    a colon has no space around it. *)
Definition exampleRuntime : Runtime :=
  mkRuntime
    (fun v => match v with
              | VString s => s
              | VOther text => text
              | VNil => "<nil>"
              | _ => "?"
              end)
    (fun tag key => EmptyString)
    (fun s => s).

(** The two bytes of U+00E9 followed by the letter a: two characters in
    three bytes. *)
Definition e_acute_a : string :=
  String (ascii_of_nat 195) (String (ascii_of_nat 169) "a").

(** The expression of [{?x,y,z*}]. *)
Definition vacantExample : templatePart :=
  mkPart "" [mkTerm "x" false 0; mkTerm "y" false 0; mkTerm "z" true 0]
         "?" "&" true "=" false.

(** ** Auxiliary definitions of the further properties *)

(** [p] holds of every byte of [s]. *)
Fixpoint allBytes (p : ascii -> bool) (s : string) : bool :=
  match s with
  | EmptyString => true
  | String c s' => p c && allBytes p s'
  end.

(** The value of an upper-case hexadecimal digit. *)
Definition hexValue (c : ascii) : N :=
  let b := Strings.byte_val c in
  if (b <? 58)%N then (b - 48)%N else (b - 55)%N.

(** The reading of an escaped string: every [%] with the two digits after
    it is the byte they spell, every other byte is itself. *)
Fixpoint unescape (s : string) : string :=
  match s with
  | EmptyString => EmptyString
  | String c s' =>
      if Ascii.eqb c "%" then
        match s' with
        | String h1 (String h2 s'') =>
            String (ascii_of_N (16 * hexValue h1 + hexValue h2)) (unescape s'')
        | _ => String c s'
        end
      else String c (unescape s')
  end.

(** The number of bytes [c] in [s]. *)
Fixpoint countByte (c : ascii) (s : string) : nat :=
  match s with
  | EmptyString => 0
  | String d s' => (if Ascii.eqb c d then 1 else 0) + countByte c s'
  end.

(** The part that [parseExpression] returns for a body. *)
Definition expressionPart (e : string) : templatePart :=
  match parseExpression e with
  | Ret (p, _) => p
  | Panic _ => zeroPart
  end.

(** The two parts of a segment after an opening brace: the expression
    before the closing brace and the literal after it. *)
Definition segmentParts (s : string) : list templatePart :=
  match Strings.Split "}" s with
  | [e; lit] => [expressionPart e; set_raw lit zeroPart]
  | _ => []
  end.

(** Literal, expression, literal, ..., literal. *)
Definition templateParts (raw : string) : list templatePart :=
  match Strings.Split "{" raw with
  | s0 :: rest => set_raw s0 zeroPart :: flat_map segmentParts rest
  | [] => []
  end.

(** What [parseTerm] checks of a term before it returns no error. *)
Definition wellFormedTerm (t : templateTerm) : bool :=
  Regexp.validname_MatchString (name t)
  && negb (explode t && (0 <? truncate t)%Z).

(** A literal has no terms; an expression has no text, at least one term,
    and well-formed terms only. *)
Definition wellFormedPart (p : templatePart) : bool :=
  match terms p with
  | [] => true
  | ts => Nat.eqb (String.length (raw p)) 0 && forallb wellFormedTerm ts
  end.

(** A byte that a valid name may hold. *)
Definition nameByte (c : ascii) : bool :=
  Regexp.name_class c || Ascii.eqb c "%".

(** The outcome [r] with [b] put before the buffer it returns. *)
Definition prepend (b : string) (r : go (string * option error))
    : go (string * option error) :=
  match r with
  | Ret (s, err) => Ret (b ++ s, err)
  | Panic p => Panic p
  end.

(** The terms whose name the environment holds. *)
Definition presentTerms (values : gomap) (ts : list templateTerm)
    : list templateTerm :=
  filter (fun term =>
            match map_get (name term) values with
            | Some _ => true
            | None => false
            end) ts.

(** A term with a truncation length whose value is a map, or a struct
    behind any number of pointers. *)
Definition truncatesMap (rt : Runtime) (values : gomap) (term : templateTerm)
    : bool :=
  (0 <? truncate term)%Z &&
  match map_get (name term) values with
  | None => false
  | Some (VString _) => false
  | Some (VArray _) => false
  | Some (VMap _) => true
  | Some v =>
      match struct2map rt v with
      | Ret (Some _) => true
      | _ => false
      end
  end.

(** A value that [struct2map] never inspects through a pointer or a
    struct: a string, a list, a map, or a value of another type. *)
Definition plainValue (v : value) : bool :=
  match v with
  | VString _ | VArray _ | VMap _ | VOther _ => true
  | VNil | VStruct _ | VPtr _ => false
  end.

(** [d] before every string of [l]. *)
Fixpoint leading (d : string) (l : list string) : string :=
  match l with
  | [] => EmptyString
  | x :: l' => d ++ x ++ leading d l'
  end.

(** What stands between the elements of a list or a map: the separator of
    the expression when the term explodes, a comma when it does not. *)
Definition listSeparator (t : templatePart) (term : templateTerm) : string :=
  if explode term then sep t else ",".

(** What stands before the elements of a list or a map that does not
    explode: the name of the term and [=] in an expression with named
    pairs. *)
Definition listName (t : templatePart) (term : templateTerm) : string :=
  if negb (explode term) then expandName t "" (name term) false else "".

(** The text of one element of a list. *)
Definition arrayPiece (rt : Runtime) (t : templatePart) (term : templateTerm)
    (v : value) : string :=
  let s := truncated term (elemString rt v) in
  (if named t && explode term
   then expandName t "" (name term) (Nat.eqb (String.length s) 0)
   else "")
  ++ escape s (allowReserved t).

(** The text of one entry of a map. *)
Definition mapPiece (rt : Runtime) (t : templatePart) (term : templateTerm)
    (kv : string * value) : string :=
  escape (fst kv) (allowReserved t)
  ++ (if explode term then "=" else ",")
  ++ escape (elemString rt (snd kv)) (allowReserved t).

(** The text of a term that renders a non-empty text without error. *)
Definition termPiece (rt : Runtime) (t : templatePart) (values : gomap)
    (term : templateTerm) : option string :=
  match map_get (name term) values with
  | None => None
  | Some v =>
      match expandValue rt t 0 term v "" with
      | Ret (p, None) => if Nat.eqb (String.length p) 0 then None else Some p
      | _ => None
      end
  end.

(** [n] pointers to a value. *)
Fixpoint pointerTo (n : nat) (v : value) : value :=
  match n with
  | O => v
  | S n' => VPtr (Some (pointerTo n' v))
  end.

(** The last field of a struct whose key is [k]. *)
Definition lastField (rt : Runtime) (k : string)
    (fields : list (structField value)) : option (structField value) :=
  find (fun f => String.eqb k (fieldKey rt f)) (rev fields).

(** No two entries of the map have the same key. *)
Fixpoint distinctKeys (m : gomap) : bool :=
  match m with
  | [] => true
  | (k, _) :: m' =>
      match map_get k m' with
      | Some _ => false
      | None => distinctKeys m'
      end
  end.

(** A byte that may stand in the expansion of an expression: a byte of
    the reserved-allowed set, or the [%] of a triplet. *)
Definition safeByte (c : ascii) : bool :=
  Spec.allowed true c || Ascii.eqb c "%".

(** An expression part: no literal text, at least one term, and only
    well-formed terms. *)
Definition isExpression (p : templatePart) : bool :=
  Nat.eqb (String.length (raw p)) 0
  && negb (Nat.eqb (List.length (terms p)) 0)
  && forallb wellFormedTerm (terms p).

(** A literal part: its text and nothing else. *)
Definition isLiteral (p : templatePart) : bool :=
  Nat.eqb (List.length (terms p)) 0
  && String.eqb (first p) "" && String.eqb (sep p) ""
  && negb (named p) && String.eqb (ifemp p) ""
  && negb (allowReserved p).

(** The parts are in turn an expression and a literal, or a literal and
    an expression, from the kind that [expression] gives. *)
Fixpoint alternate (expression : bool) (ps : list templatePart) : bool :=
  match ps with
  | [] => true
  | p :: rest =>
      (if expression then isExpression p else isLiteral p)
      && alternate (negb expression) rest
  end.

(** ** The first error in reading order

    What the two operations have to return when the first error met
    aborts them, read off the template and the environment without any
    array or buffer: [None] is no error. *)

(** The error of the first term specification that [parseTerm] turns
    down. *)
Fixpoint firstTermError (rawterms : list string) : option error :=
  match rawterms with
  | [] => None
  | r :: rest =>
      match snd (parseTerm r) with
      | Some e => Some e
      | None => firstTermError rest
      end
  end.

(** The error of an expression body: the one of its first bad term. *)
Definition expressionError (expression : string) : go (option error) :=
  match expression with
  | EmptyString => Panic IndexOutOfRange
  | String c rest =>
      Ret (firstTermError
             (Strings.Split ","
                (if snd (operator c) then rest else expression)))
  end.

(** The error of the first bad segment after an opening brace. *)
Fixpoint firstSegmentError (segs : list string) : go (option error) :=
  match segs with
  | [] => Ret None
  | s :: rest =>
      match Strings.Split "}" s with
      | [expression; _] =>
          r <- expressionError expression ;;
          match r with
          | Some e => Ret (Some e)
          | None => firstSegmentError rest
          end
      | _ => Ret (Some ErrMalformed)
      end
  end.

Definition templateError (raw : string) : go (option error) :=
  match Strings.Split "{" raw with
  | s0 :: rest =>
      if Strings.contains_byte "}" s0 then Ret (Some ErrUnexpectedClose)
      else firstSegmentError rest
  | [] => Ret None
  end.

(** The error that the value of a term gives: the one of a truncated
    map. *)
Definition valueError (rt : Runtime) (term : templateTerm) (v : value)
    : go (option error) :=
  let guard :=
    if (0 <? truncate term)%Z then Some ErrTruncateMap else None in
  match v with
  | VString _ => Ret None
  | VArray _ => Ret None
  | VMap _ => Ret guard
  | _ =>
      r <- struct2map rt v ;;
      match r with
      | Some _ => Ret guard
      | None => Ret None
      end
  end.

(** The error of the first term whose value gives one. *)
Fixpoint firstValueError (rt : Runtime) (values : gomap)
    (ts : list templateTerm) : go (option error) :=
  match ts with
  | [] => Ret None
  | term :: rest =>
      match map_get (name term) values with
      | None => firstValueError rt values rest
      | Some v =>
          r <- valueError rt term v ;;
          match r with
          | Some e => Ret (Some e)
          | None => firstValueError rt values rest
          end
      end
  end.

(** The error of the first part one of whose terms gives one. *)
Fixpoint firstPartError (rt : Runtime) (values : gomap)
    (ps : list templatePart) : go (option error) :=
  match ps with
  | [] => Ret None
  | p :: rest =>
      r <- (if Nat.ltb 0 (String.length (raw p)) then Ret None
            else firstValueError rt values (terms p)) ;;
      match r with
      | Some e => Ret (Some e)
      | None => firstPartError rt values rest
      end
  end.

(** * Properties *)

(** ** Strings *)

Module StringFacts.

Lemma length_append (s t : string) :
  String.length (s ++ t) = String.length s + String.length t.
Proof. induction s as [|c s IH]; simpl; [reflexivity | now rewrite IH]. Qed.

Lemma append_nil_r (s : string) : s ++ "" = s.
Proof. induction s as [|c s IH]; simpl; [reflexivity | now rewrite IH]. Qed.

Lemma append_assoc (s t u : string) : (s ++ t) ++ u = s ++ (t ++ u).
Proof. induction s as [|c s IH]; simpl; [reflexivity | now rewrite IH]. Qed.

Lemma take_append (s t : string) : Strings.take (String.length s) (s ++ t) = s.
Proof. induction s as [|c s IH]; simpl; [now destruct t | now rewrite IH]. Qed.

Lemma take_all (s : string) : Strings.take (String.length s) s = s.
Proof. induction s as [|c s IH]; simpl; [reflexivity | now rewrite IH]. Qed.

Lemma length_same_append (s t : string) :
  String.length (s ++ t) = String.length s -> t = "".
Proof.
  rewrite length_append. destruct t; [reflexivity | simpl; lia].
Qed.

End StringFacts.

(** ** The code on the tests of the package and on small inputs *)

Example escape_ex1 : escape "name,ASC" false = "name%2CASC".
Proof. vm_compute. reflexivity. Qed.
Example escape_ex2 : escape "name,ASC /" true = "name,ASC%20/".
Proof. vm_compute. reflexivity. Qed.
Example escape_ex3 :
  escape (String (ascii_of_nat 195) (String (ascii_of_nat 169) "a")) true
  = "%C3%A9a".
Proof. vm_compute. reflexivity. Qed.

Example Parse_ex1 :
  Parse "a{?date,name*}b{x:3}" =
  Ret (Some (mkTemplate "a{?date,name*}b{x:3}"
         [ mkPart "a" [] "" "" false "" false;
           mkPart "" [mkTerm "date" false 0; mkTerm "name" true 0]
                  "?" "&" true "=" false;
           mkPart "b" [] "" "" false "" false;
           mkPart "" [mkTerm "x" false 3] "" "," false "" false;
           zeroPart ]), None).
Proof. vm_compute. reflexivity. Qed.
Example Parse_ex2 : Parse "a}b" = Ret (None, Some ErrUnexpectedClose).
Proof. vm_compute. reflexivity. Qed.
Example Parse_ex3 : Parse "{a" = Ret (None, Some ErrMalformed).
Proof. vm_compute. reflexivity. Qed.
Example Parse_ex4 : Parse "{a:b:c}" = Ret (None, Some (ErrInvalidName "")).
Proof. vm_compute. reflexivity. Qed.
Example Parse_ex5 : Parse "{a*:3}" = Ret (None, Some (ErrInvalidName "a*")).
Proof. vm_compute. reflexivity. Qed.
Example Parse_ex6 : Parse "{a:3*}" = Ret (None, Some ErrExplodeAndPrefix).
Proof. vm_compute. reflexivity. Qed.

Example ParseInt_ex1 :
  Strconv.ParseInt "99999999999999999999x"
  = (9223372036854775807%Z, Some (ErrNumRange "99999999999999999999x")).
Proof. vm_compute. reflexivity. Qed.
Example ParseInt_ex2 :
  Strconv.ParseInt "18446744073709551615x"
  = (0%Z, Some (ErrNumSyntax "18446744073709551615x")).
Proof. vm_compute. reflexivity. Qed.
Example ParseInt_ex3 :
  Strconv.ParseInt "-9223372036854775808" = ((-9223372036854775808)%Z, None).
Proof. vm_compute. reflexivity. Qed.
Example ParseInt_ex4 :
  Strconv.ParseInt "9223372036854775808"
  = (9223372036854775807%Z, Some (ErrNumRange "9223372036854775808")).
Proof. vm_compute. reflexivity. Qed.
Example parseTerm_overflow_then_star :
  parseTerm "x:99999999999999999999x*"
  = (mkTerm "x" true 9223372036854775807, Some ErrExplodeAndPrefix).
Proof. vm_compute. reflexivity. Qed.

Example Expand_test0 :
  Expand exampleRuntime "http://localhost:8080/{id}" [("id", VString "foo")]
  = Ret ("http://localhost:8080/foo", None).
Proof. vm_compute. reflexivity. Qed.
Example Expand_test2 :
  Expand exampleRuntime "http://localhost:8080/{?date,name}"
    [("date", VString "2017-07-13")]
  = Ret ("http://localhost:8080/?date=2017-07-13", None).
Proof. vm_compute. reflexivity. Qed.
Example Expand_test4 :
  Expand exampleRuntime "http://localhost:8080/{?date,axle,distance}"
    [("date", VString "2017-07-13"); ("axle", VOther "33");
     ("distance", VOther "34.7")]
  = Ret ("http://localhost:8080/?date=2017-07-13&axle=33&distance=34.7", None).
Proof. vm_compute. reflexivity. Qed.
Example Expand_test7 :
  Expand exampleRuntime "{?sort,filter*,search,limit}"
    [("sort", VString "name,ASC"); ("filter", VString "name,like,foo,bar")]
  = Ret ("?sort=name%2CASC&filter=name%2Clike%2Cfoo%2Cbar", None).
Proof. vm_compute. reflexivity. Qed.

(** ** Percent-encoding is byte-wise *)

Lemma DecodeRune_shape (c : ascii) (s' : string) :
  let b := Strings.byte_val c in
  let rw := Utf8.DecodeRune (String c s') in
  ((b < 128)%N /\ rw = (b, 1)) \/
  ((128 <= b)%N /\ (128 <= fst rw)%N /\
   (snd rw = 1 \/
    (exists c1 s2, s' = String c1 s2 /\
       (128 <= Strings.byte_val c1)%N /\ snd rw = 2) \/
    (exists c1 c2 s3, s' = String c1 (String c2 s3) /\
       (128 <= Strings.byte_val c1)%N /\ (128 <= Strings.byte_val c2)%N /\
       snd rw = 3) \/
    (exists c1 c2 c3 s4, s' = String c1 (String c2 (String c3 s4)) /\
       (128 <= Strings.byte_val c1)%N /\ (128 <= Strings.byte_val c2)%N /\
       (128 <= Strings.byte_val c3)%N /\ snd rw = 4))).
Proof.
  cbv zeta. unfold Utf8.DecodeRune, Utf8.RuneError.
  destruct (N.ltb_spec (Strings.byte_val c) 128) as [Hlt|Hge].
  - left. split; [assumption | reflexivity].
  - right. split; [assumption|].
    unfold Utf8.cont, Utf8.in_range.
    repeat match goal with
    | |- context [match ?s with EmptyString => _ | String _ _ => _ end] =>
        destruct s
    | |- context [if ?b then _ else _] => destruct b eqn:?
    end; simpl fst; simpl snd.
    all: try (split; [lia | left; reflexivity]).
    all: repeat match goal with
         | H : context [if ?b then _ else _] |- _ => destruct b eqn:?
         | H : (_ && _)%bool = true |- _ => apply andb_prop in H; destruct H
         end.
    all: repeat match goal with
         | H : (_ <=? _)%N = true |- _ => apply N.leb_le in H
         | H : (_ =? _)%N = true |- _ => apply N.eqb_eq in H
         | H : (_ =? _)%N = false |- _ => apply N.eqb_neq in H
         end.
    all: split; [ zify; Z.to_euclidean_division_equations; lia | right ].
    all: first
      [ left; eexists _, _; split; [reflexivity|];
        repeat split; (reflexivity || lia)
      | right; left; eexists _, _, _; split; [reflexivity|];
        repeat split; (reflexivity || lia)
      | right; right; eexists _, _, _, _; split; [reflexivity|];
        repeat split; (reflexivity || lia) ].
Qed.

(** A class of ASCII runes only: a multi-byte sequence, and a byte that
    starts none, is always replaced, and [pctEncode] encodes its bytes one
    by one. *)
Lemma ReplaceAllFunc_bytewise (class : N -> bool) (s : string) :
  (forall r, class r = true -> (r < 128)%N) ->
  Regexp.ReplaceAllFunc class pctEncode s
  = bytewise (fun c => class (Strings.byte_val c)) s.
Proof.
  intros Hascii.
  assert (Hout : forall r, (128 <= r)%N -> class r = false).
  { intros r Hr. destruct (class r) eqn:E; [|reflexivity].
    apply Hascii in E. lia. }
  remember (String.length s) as n eqn:Hn. revert s Hn.
  induction n as [n IH] using lt_wf_ind. intros [|c s'] Hn.
  - reflexivity.
  - assert (IH' : forall t, String.length t < n ->
        Regexp.ReplaceAllFunc class pctEncode t
        = bytewise (fun c => class (Strings.byte_val c)) t).
    { intros t Ht. exact (IH _ Ht t eq_refl). }
    clear IH. subst n. simpl in IH'.
    rewrite Regexp.ReplaceAllFunc_equation_2. cbv zeta.
    destruct (DecodeRune_shape c s') as [[Hlt Hrw] | (Hge & Hr & Hw)];
      cbv zeta in *.
    + rewrite Hrw. simpl fst. simpl snd. simpl Strings.take. simpl Utf8.drop.
      rewrite IH' by lia.
      simpl. destruct (class (Strings.byte_val c)); reflexivity.
    + rewrite (Hout _ Hr).
      destruct Hw as [Hw | [(c1 & s2 & -> & H1 & Hw)
        | [(c1 & c2 & s3 & -> & H1 & H2 & Hw)
        | (c1 & c2 & c3 & s4 & -> & H1 & H2 & H3 & Hw)]]];
        rewrite Hw; simpl Strings.take; simpl Utf8.drop;
        cbn [bytewise]; rewrite ?Hout by assumption;
        rewrite IH' by (simpl; lia); reflexivity.
Qed.

Ltac each_byte c := destruct c as [[] [] [] [] [] [] [] []].

Lemma hex_index_in_range (c : ascii) :
  (Strings.byte_val c / 16 < 16)%N /\ (Strings.byte_val c mod 16 < 16)%N.
Proof.
  pose proof (N_ascii_bounded c) as Hb. unfold Strings.byte_val.
  split; zify; Z.to_euclidean_division_equations; lia.
Qed.

Lemma pctEncode_triplet (c : ascii) :
  pctEncode (String c EmptyString) = Spec.triplet c.
Proof. each_byte c; reflexivity. Qed.

Lemma unreserved_class_allowed (c : ascii) :
  Regexp.unreserved_class (Strings.byte_val c) = Spec.allowed false c.
Proof. each_byte c; reflexivity. Qed.

Lemma reserved_class_allowed (c : ascii) :
  Regexp.reserved_class (Strings.byte_val c) = Spec.allowed true c.
Proof. each_byte c; reflexivity. Qed.

Lemma unreserved_class_ascii (r : N) :
  Regexp.unreserved_class r = true -> (r < 128)%N.
Proof.
  unfold Regexp.unreserved_class, Utf8.in_range. intros H.
  repeat match type of H with
  | (_ || _)%bool = true => apply orb_prop in H; destruct H as [H|H]
  | (_ && _)%bool = true => apply andb_prop in H; destruct H as [? H]
  end;
  repeat match goal with
  | H : (_ <=? _)%N = true |- _ => apply N.leb_le in H
  | H : (_ =? _)%N = true |- _ => apply N.eqb_eq in H
  end; lia.
Qed.

Lemma reserved_class_ascii (r : N) :
  Regexp.reserved_class r = true -> (r < 128)%N.
Proof.
  unfold Regexp.reserved_class. intros H.
  repeat match type of H with
  | (_ || _)%bool = true => apply orb_prop in H; destruct H as [H|H]
  end;
  try (apply unreserved_class_ascii; assumption);
  apply N.eqb_eq in H; lia.
Qed.

Lemma bytewise_encode (reservedAllowed : bool) (keep : ascii -> bool)
    (s : string) :
  (forall c, keep c = Spec.allowed reservedAllowed c) ->
  bytewise keep s = Spec.encode reservedAllowed s.
Proof.
  intros Hkeep. induction s as [|c s IH]; [reflexivity|].
  cbn [bytewise Spec.encode]. rewrite Hkeep, IH, pctEncode_triplet.
  reflexivity.
Qed.

Lemma escape_encode (s : string) (allowReserved : bool) :
  escape s allowReserved = Spec.encode allowReserved s.
Proof.
  unfold escape. destruct allowReserved.
  - rewrite ReplaceAllFunc_bytewise by apply reserved_class_ascii.
    apply bytewise_encode, reserved_class_allowed.
  - rewrite ReplaceAllFunc_bytewise by apply unreserved_class_ascii.
    apply bytewise_encode, unreserved_class_allowed.
Qed.

(** ** The parser returns on every non-empty expression body *)

Lemma store_returns {A : Type} (i : nat) (f : A -> A) (l : list A) :
  i < List.length l ->
  exists l', store i f l = Ret l' /\ List.length l' = List.length l.
Proof.
  revert i. induction l as [|x l IH]; intros i Hi; simpl in Hi; [lia|].
  destruct i as [|i]; cbn [store].
  - eexists. split; reflexivity.
  - destruct (IH i) as (l' & Hs & Hl); [lia|]. rewrite Hs. simpl.
    eexists. split; [reflexivity | simpl; congruence].
Qed.

Lemma parseTerms_returns (rawterms : list string) :
  forall i terms,
    i + List.length rawterms <= List.length terms ->
    exists ts err, parseTerms i rawterms terms = Ret (ts, err).
Proof.
  induction rawterms as [|raw rest IH]; intros i terms Hlen;
    simpl in Hlen; cbn [parseTerms].
  - eauto.
  - destruct (parseTerm raw) as [t err].
    destruct (store_returns i (fun _ => t) terms) as (terms' & Hs & Hl); [lia|].
    rewrite Hs. simpl. destruct err as [e|]; [eauto|].
    apply IH. lia.
Qed.

Lemma operator_table (c : ascii) (rest : string) :
  let p := fst (operator c) in
  let r := Spec.table (Spec.operator_of (String c rest)) in
  first p = Spec.prefix r /\ sep p = Spec.separator r /\
  named p = Spec.namedPairs r /\
  match Spec.emptyText r with
  | Some e => ifemp p = e
  | None => named p = false
  end /\
  allowReserved p = Spec.reservedAllowed r.
Proof. each_byte c; repeat split. Qed.

Lemma parseExpression_returns (c : ascii) (rest : string) :
  exists ts err,
    parseExpression (String c rest)
    = Ret (set_terms ts (fst (operator c)), err).
Proof.
  unfold parseExpression. destruct (operator c) as [result consumed].
  match goal with |- context [parseTerms 0 ?r ?t] =>
    destruct (parseTerms_returns r 0 t) as (ts & err & Hp)
  end.
  { rewrite repeat_length. simpl. lia. }
  rewrite Hp. simpl. eauto.
Qed.

(** ** The claims on percent-encoding and on the operator table *)



(** C8.  For each of the eight operators, parsing an expression body
    returns a part whose prefix, separator, named-pairs flag, empty-value
    text (where the table has one) and reserved-characters flag are those
    of the operator table. *)
Theorem parseExpression_operator_table (c : ascii) (rest : string) :
  exists p err,
    parseExpression (String c rest) = Ret (p, err) /\
    let r := Spec.table (Spec.operator_of (String c rest)) in
    first p = Spec.prefix r /\ sep p = Spec.separator r /\
    named p = Spec.namedPairs r /\
    match Spec.emptyText r with
    | Some e => ifemp p = e
    | None => named p = false
    end /\
    allowReserved p = Spec.reservedAllowed r.
Proof.
  destruct (parseExpression_returns c rest) as (ts & err & Hret).
  exists (set_terms ts (fst (operator c))), err. split; [exact Hret|].
  exact (operator_table c rest).
Qed.

Example operator_query :
  parseExpression "?x"
  = Ret (mkPart "" [mkTerm "x" false 0] "?" "&" true "=" false, None).
Proof. vm_compute. reflexivity. Qed.
Example operator_simple :
  parseExpression "x"
  = Ret (mkPart "" [mkTerm "x" false 0] "" "," false "" false, None).
Proof. vm_compute. reflexivity. Qed.
Example operator_semicolon :
  parseExpression ";x"
  = Ret (mkPart "" [mkTerm "x" false 0] ";" ";" true "" false, None).
Proof. vm_compute. reflexivity. Qed.

(** ** Inputs on which the code leaves its contract *)

(** C1.  [Parse] on the template whose only expression has an empty body:
    [parseExpression] reads [expression[0]] of the empty string, and the
    call panics instead of returning an error. *)
Theorem Parse_empty_expression_panics : Parse "{}" = Panic IndexOutOfRange.
Proof. vm_compute. reflexivity. Qed.

Lemma expandArray_empty (rt : Runtime) (t : templatePart) (buf : string)
    (term : templateTerm) :
  expandArray rt t buf term [] = buf.
Proof. reflexivity. Qed.

Lemma expandMap_empty (rt : Runtime) (t : templatePart) (buf : string)
    (term : templateTerm) :
  expandMap rt t buf term [] = buf.
Proof. reflexivity. Qed.

(** C2.  A term whose value is the empty list, after a term that rendered:
    the separator is written before the value is looked at, so the
    expansion ends in a separator. *)
Theorem Expand_empty_list_keeps_separator (rt : Runtime) :
  Expand rt "{x,y}" [("x", VString "a"); ("y", VArray [])]
  = Ret ("a,", None).
Proof. vm_compute. reflexivity. Qed.

(** C10.  [Template.Expand] on the nil interface value: [struct2map] asks
    the zero [reflect.Value] for its type, and the call panics instead of
    returning the error. *)
Theorem Template_Expand_nil_panics (rt : Runtime) (t : Template) :
  Template_Expand rt t VNil = Panic ReflectZeroValue.
Proof. reflexivity. Qed.

(** ** Terms that render nothing, and terms with an empty scalar *)

Section ExpansionFacts.

Context (rt : Runtime).

Lemma escape_empty (allowReserved : bool) : escape "" allowReserved = "".
Proof. rewrite escape_encode. reflexivity. Qed.

Lemma truncated_empty (term : templateTerm) : truncated term "" = "".
Proof.
  unfold truncated.
  destruct ((truncate term <? Z.of_nat (String.length ""))%Z
            && (0 <? truncate term)%Z); [|reflexivity].
  destruct (Z.to_nat (truncate term)); reflexivity.
Qed.

Lemma length_zero_empty (s : string) :
  Nat.eqb (String.length s) 0 = true -> s = "".
Proof. destruct s; [reflexivity | discriminate]. Qed.

Lemma expandString_empty (t : templatePart) (buf : string)
    (term : templateTerm) :
  expandString t buf term ""
  = if named t then (buf ++ name term) ++ ifemp t else buf.
Proof.
  unfold expandString, expandName. rewrite truncated_empty, escape_empty.
  simpl. rewrite StringFacts.append_nil_r. reflexivity.
Qed.

Lemma expandValue_vacant (t : templatePart) (values : gomap)
    (term : templateTerm) (v : value) (buf : string) :
  map_get (name term) values = Some v ->
  vacant rt t values term = true ->
  expandValue rt t (String.length buf) term v buf = Ret (buf, None).
Proof.
  intros Hget Hvac. unfold vacant in Hvac. rewrite Hget in Hvac.
  unfold expandValue. rewrite Nat.eqb_refl. cbn [negb].
  assert (Hscalar : forall s,
    Nat.eqb (String.length s) 0 && negb (named t) = true ->
    expandString t buf term s = buf).
  { intros s H. apply andb_prop in H. destruct H as [Hs Hn].
    rewrite (length_zero_empty s Hs), expandString_empty.
    destruct (named t); [discriminate | reflexivity]. }
  assert (Hmap : forall m,
    Nat.eqb (List.length m) 0 && (truncate term <=? 0)%Z = true ->
    (if (0 <? truncate term)%Z
     then Ret (buf, Some ErrTruncateMap)
     else Ret (expandMap rt t buf term m, None)) = Ret (buf, None)).
  { intros m H. apply andb_prop in H. destruct H as [Hm Hz].
    apply Z.leb_le in Hz.
    destruct (Z.ltb_spec 0 (truncate term)); [lia|].
    unfold expandMap. rewrite Hm. reflexivity. }
  destruct v as [|s|a|m|fields|p|text].
  - discriminate.
  - rewrite Hscalar by assumption. reflexivity.
  - unfold expandArray. rewrite Hvac. reflexivity.
  - apply Hmap. assumption.
  - destruct (struct2map rt (VStruct fields)) as [[m|]|]; cbn [bind];
      [apply Hmap; assumption | rewrite Hscalar by assumption; reflexivity
      | discriminate].
  - destruct (struct2map rt (VPtr p)) as [[m|]|]; cbn [bind];
      [apply Hmap; assumption | rewrite Hscalar by assumption; reflexivity
      | discriminate].
  - cbn [struct2map bind] in *. rewrite Hscalar by assumption. reflexivity.
Qed.

Lemma expandTerms_vacant (t : templatePart) (values : gomap)
    (ts : list templateTerm) (buf : string) :
  forallb (vacant rt t values) ts = true ->
  expandTerms rt t (String.length buf) ts values buf = Ret (buf, None).
Proof.
  induction ts as [|term rest IH]; intros Hall; [reflexivity|].
  cbn [forallb] in Hall. apply andb_prop in Hall. destruct Hall as [Hv Hrest].
  cbn [expandTerms]. destruct (map_get (name term) values) as [v|] eqn:Hget.
  - rewrite (expandValue_vacant t values term v buf Hget Hv). cbn [bind].
    apply IH. assumption.
  - apply IH. assumption.
Qed.

Lemma expand_vacant (t : templatePart) (values : gomap) (buf : string) :
  raw t = "" ->
  forallb (vacant rt t values) (terms t) = true ->
  expand rt t buf values = Ret (buf, None).
Proof.
  intros Hraw Hall. unfold expand. rewrite Hraw.
  cbn [String.length Nat.ltb Nat.leb].
  rewrite expandTerms_vacant by assumption. cbn [bind].
  rewrite Nat.eqb_refl, StringFacts.take_append. reflexivity.
Qed.

Lemma expandParts_app (ps1 ps2 : list templatePart) (values : gomap) :
  forall buf,
    expandParts rt (ps1 ++ ps2)%list buf values
    = '(buf', err) <- expandParts rt ps1 buf values ;;
      match err with
      | Some e => Ret (buf', Some e)
      | None => expandParts rt ps2 buf' values
      end.
Proof.
  induction ps1 as [|p ps1 IH]; intros buf; [reflexivity|].
  cbn [app expandParts]. destruct (expand rt p buf values) as [[b [e|]]|];
    cbn [bind]; [reflexivity | apply IH | reflexivity].
Qed.

End ExpansionFacts.

(** ** Empty scalars, vacant expressions and truncation *)

(** C3, as stated, fails: an empty scalar under a named-pairs operator is
    not rendered as an absent term is. *)
Lemma empty_scalar_differs_from_absent :
  Expand exampleRuntime "{?x}" [("x", VString "")]
  <> Expand exampleRuntime "{?x}" [].
Proof. vm_compute. discriminate. Qed.

(** C3, amended.  A scalar-valued term whose name is present and whose
    string form is empty contributes no value text, yet it is rendered as a
    present term: the separator is written before it when the buffer has
    grown since the prefix, and in an expression with named pairs its name
    and the empty-value text of the operator are written. *)
Theorem empty_scalar_renders_name (rt : Runtime) (t : templatePart)
    (firstLen : nat) (term : templateTerm) (v : value) (buf : string) :
  scalarForm rt v = Some "" ->
  expandValue rt t firstLen term v buf
  = Ret (let buf :=
           if negb (Nat.eqb (String.length buf) firstLen) then buf ++ sep t
           else buf in
         if named t then (buf ++ name term) ++ ifemp t else buf, None).
Proof.
  intros Hform. unfold expandValue. cbv zeta.
  set (buf' := if negb (Nat.eqb (String.length buf) firstLen)
               then buf ++ sep t else buf).
  destruct v as [|s|a|m|fields|p|text]; cbn [scalarForm] in Hform;
    try discriminate.
  - injection Hform as ->. rewrite expandString_empty. reflexivity.
  - destruct (struct2map rt (VStruct fields)) as [[m|]|]; try discriminate.
    injection Hform as ->. cbn [bind]. rewrite expandString_empty. reflexivity.
  - destruct (struct2map rt (VPtr p)) as [[m|]|]; try discriminate.
    injection Hform as ->. cbn [bind]. rewrite expandString_empty. reflexivity.
  - cbn [struct2map] in *. injection Hform as ->. cbn [bind].
    rewrite expandString_empty. reflexivity.
Qed.

Lemma empty_scalar_renders_name_witness :
  expandValue exampleRuntime
    (mkPart "" [mkTerm "x" false 0] "?" "&" true "=" false) 1
    (mkTerm "x" false 0) (VString "") "?"
  = Ret ("?x=", None).
Proof.
  apply (empty_scalar_renders_name exampleRuntime
           (mkPart "" [mkTerm "x" false 0] "?" "&" true "=" false) 1
           (mkTerm "x" false 0) (VString "") "?").
  reflexivity.
Defined.

(** C5, as stated, fails: an expression whose only term is an empty
    scalar keeps its prefix and the name under a named-pairs operator. *)
Lemma empty_scalar_keeps_prefix :
  Expand exampleRuntime "a{?x}b" [("x", VString "")] <> Ret ("ab", None).
Proof. vm_compute. discriminate. Qed.

(** C5, amended.  An expression whose every term is absent, or present
    with an empty list, or present with an empty map under a term without
    truncation length, or present with an empty scalar in an expression
    without named pairs, contributes the empty string, whatever its
    operator; the output of the other parts is what it is without the
    expression. *)
Theorem vacant_expression_contributes_nothing (rt : Runtime)
    (t : templatePart) (values : gomap) (ps1 ps2 : list templatePart)
    (buf : string) :
  raw t = "" ->
  forallb (vacant rt t values) (terms t) = true ->
  expand rt t buf values = Ret (buf, None) /\
  expandParts rt (ps1 ++ t :: ps2)%list buf values
  = expandParts rt (ps1 ++ ps2)%list buf values.
Proof.
  intros Hraw Hall. split; [apply expand_vacant; assumption|].
  rewrite !expandParts_app.
  destruct (expandParts rt ps1 buf values) as [[b [e|]]|]; cbn [bind];
    try reflexivity.
  cbn [expandParts]. rewrite expand_vacant by assumption. reflexivity.
Qed.

Lemma vacant_expression_contributes_nothing_witness :
  expand exampleRuntime vacantExample "a"
    [("y", VArray []); ("z", VMap [])] = Ret ("a", None) /\
  expandParts exampleRuntime
    ([mkPart "a" [] "" "" false "" false] ++ vacantExample
       :: [mkPart "b" [] "" "" false "" false])%list ""
    [("y", VArray []); ("z", VMap [])]
  = expandParts exampleRuntime
      ([mkPart "a" [] "" "" false "" false]
         ++ [mkPart "b" [] "" "" false "" false])%list ""
      [("y", VArray []); ("z", VMap [])].
Proof.
  split;
    apply (vacant_expression_contributes_nothing exampleRuntime vacantExample
             [("y", VArray []); ("z", VMap [])]
             [mkPart "a" [] "" "" false "" false]
             [mkPart "b" [] "" "" false "" false]);
    reflexivity.
Defined.

Lemma take_substring (n : nat) (s : string) :
  Strings.take n s = String.substring 0 n s.
Proof.
  revert s. induction n as [|n IH]; intros [|c s]; simpl; try reflexivity.
  now rewrite IH.
Qed.

Lemma length_take (n : nat) (s : string) :
  n <= String.length s -> String.length (Strings.take n s) = n.
Proof.
  revert s. induction n as [|n IH]; intros [|c s] H; simpl in *;
    try reflexivity; try lia.
  rewrite IH by lia. reflexivity.
Qed.

(** C6.  Truncation to one character of the string of U+00E9 followed by
    the letter a, two characters in three bytes: the code compares and
    cuts byte lengths ([s[:term.truncate]]), so it renders the first byte
    of the first character, which is no character of the string, where
    the first character is called for. *)
Theorem Expand_truncation_cuts_character (rt : Runtime) :
  Utf8.count_chars e_acute_a = 2 /\
  Expand rt "{x:1}" [("x", VString e_acute_a)] = Ret ("%C3", None) /\
  escape (Utf8.prefix_chars 1 e_acute_a) false = "%C3%A9".
Proof. repeat split; vm_compute; reflexivity. Qed.

(** What the code does in place of it: for a term with [truncate = n > 0]
    and a scalar whose string form is longer than [n] bytes, the value
    rendered before percent-encoding is the first [n] bytes of the string
    form; the string form is rendered unchanged when it has at most [n]
    bytes, or when [n = 0]. *)
Theorem truncation_first_bytes (t : templatePart) (buf : string)
    (term : templateTerm) (s : string) :
  (0 <= truncate term)%Z ->
  let n := Z.to_nat (truncate term) in
  let v := if Nat.ltb 0 n && Nat.ltb n (String.length s)
           then String.substring 0 n s else s in
  expandString t buf term s
  = expandName t buf (name term) (Nat.eqb (String.length v) 0)
    ++ escape v (allowReserved t)
  /\ (0 < n < String.length s -> String.length v = n).
Proof.
  intros Hn n v. unfold expandString.
  assert (Hv : truncated term s = v).
  { unfold truncated, v, n. rewrite take_substring.
    replace ((truncate term <? Z.of_nat (String.length s))%Z)
      with (Nat.ltb (Z.to_nat (truncate term)) (String.length s)).
    2:{ destruct (Nat.ltb_spec (Z.to_nat (truncate term)) (String.length s));
        destruct (Z.ltb_spec (truncate term) (Z.of_nat (String.length s)));
        (reflexivity || lia). }
    replace ((0 <? truncate term)%Z)
      with (Nat.ltb 0 (Z.to_nat (truncate term))).
    2:{ destruct (Nat.ltb_spec 0 (Z.to_nat (truncate term)));
        destruct (Z.ltb_spec 0 (truncate term)); (reflexivity || lia). }
    rewrite andb_comm. reflexivity. }
  rewrite Hv. split; [reflexivity|].
  intros [H0 Hlt]. unfold v.
  destruct (Nat.ltb_spec 0 n); [|lia].
  destruct (Nat.ltb_spec n (String.length s)); [|lia].
  cbn [andb]. rewrite <- take_substring. apply length_take. lia.
Qed.

Lemma truncation_first_bytes_witness :
  expandString (mkPart "" [] "" "," false "" false) "" (mkTerm "x" false 3)
    "abcdef"
  = "abc".
Proof.
  apply (truncation_first_bytes (mkPart "" [] "" "," false "" false) ""
           (mkTerm "x" false 3) "abcdef").
  simpl. lia.
Defined.

(** ** The truncation length of a term specification *)

Lemma decimal_from_nonneg (s : string) :
  forall acc,
    (0 <= acc)%Z ->
    forallb SpecInt.is_digit (list_ascii_of_string s) = true ->
    (0 <= SpecInt.decimal_from acc s)%Z.
Proof.
  unfold SpecInt.decimal_from.
  induction s as [|c s IH]; intros acc Hacc Hall; [assumption|].
  cbn [list_ascii_of_string forallb fold_left] in *.
  apply andb_prop in Hall. destruct Hall as [Hc Hs].
  apply IH; [|assumption].
  unfold SpecInt.is_digit, Utf8.in_range in Hc. apply andb_prop in Hc.
  destruct Hc as [Hlo _]. apply N.leb_le in Hlo.
  unfold SpecInt.digit_value. lia.
Qed.

Lemma decimal_from_ge (s : string) :
  forall acc,
    (0 <= acc)%Z ->
    forallb SpecInt.is_digit (list_ascii_of_string s) = true ->
    (acc <= SpecInt.decimal_from acc s)%Z.
Proof.
  unfold SpecInt.decimal_from.
  induction s as [|c s IH]; intros acc Hacc Hall; [cbn; lia|].
  cbn [list_ascii_of_string forallb fold_left] in *.
  apply andb_prop in Hall. destruct Hall as [Hc Hs].
  unfold SpecInt.is_digit, Utf8.in_range in Hc. apply andb_prop in Hc.
  destruct Hc as [Hlo _]. apply N.leb_le in Hlo.
  assert (Hd : (0 <= SpecInt.digit_value c)%Z)
    by (unfold SpecInt.digit_value; lia).
  specialize (IH (acc * 10 + SpecInt.digit_value c)%Z ltac:(lia) Hs). lia.
Qed.

Lemma digits_value (s : string) :
  forall acc n,
    Strconv.digits acc s = Strconv.UOk n ->
    forallb SpecInt.is_digit (list_ascii_of_string s) = true /\
    n = SpecInt.decimal_from acc s.
Proof.
  induction s as [|c s IH]; intros acc n H.
  - cbn in H. injection H as <-. split; reflexivity.
  - cbn [Strconv.digits list_ascii_of_string forallb] in *.
    unfold Strconv.digit_val in H. unfold SpecInt.is_digit at 1.
    destruct (Utf8.in_range 48 57 (Strings.byte_val c)); [|discriminate].
    destruct (Strconv.cutoff10 <=? acc)%Z; [discriminate|]. cbv zeta in H.
    destruct (Strconv.maxUint64 <? _)%Z; [discriminate|].
    apply IH in H. destruct H as [-> ->]. split; reflexivity.
Qed.

Lemma digits_decimal (s : string) :
  forall acc,
    (0 <= acc)%Z ->
    forallb SpecInt.is_digit (list_ascii_of_string s) = true ->
    (SpecInt.decimal_from acc s <= Strconv.maxUint64)%Z ->
    Strconv.digits acc s = Strconv.UOk (SpecInt.decimal_from acc s).
Proof.
  induction s as [|c s IH]; intros acc Hacc Hall Hmax; [reflexivity|].
  cbn [Strconv.digits list_ascii_of_string forallb] in *.
  apply andb_prop in Hall. destruct Hall as [Hc Hs].
  unfold Strconv.digit_val. unfold SpecInt.is_digit in Hc. rewrite Hc.
  unfold Utf8.in_range in Hc. apply andb_prop in Hc.
  destruct Hc as [Hlo _]. apply N.leb_le in Hlo.
  change (SpecInt.decimal_from acc (String c s))
    with (SpecInt.decimal_from (acc * 10 + SpecInt.digit_value c) s) in *.
  unfold SpecInt.digit_value in *.
  pose proof (decimal_from_ge s (acc * 10 + (Z.of_N (Strings.byte_val c) - 48))
                ltac:(lia) Hs) as Hge.
  assert (Hcut : Strconv.cutoff10 = 1844674407370955162%Z) by reflexivity.
  assert (Hm : Strconv.maxUint64 = 18446744073709551615%Z) by reflexivity.
  destruct (Z.leb_spec Strconv.cutoff10 acc); [lia|]. cbv zeta.
  destruct (Z.ltb_spec Strconv.maxUint64
              (acc * 10 + (Z.of_N (Strings.byte_val c) - 48))); [lia|].
  apply IH; [lia | exact Hs | exact Hmax].
Qed.

Lemma unsigned_decimal_nonneg (s : string) (u : Z) :
  SpecInt.unsigned_decimal s = Some u -> (0 <= u)%Z.
Proof.
  unfold SpecInt.unsigned_decimal.
  destruct (Nat.ltb 0 (String.length s)); [|discriminate]. cbn [andb].
  destruct (forallb SpecInt.is_digit (list_ascii_of_string s)) eqn:Hall;
    [|discriminate].
  intros [= <-]. apply decimal_from_nonneg; [lia | assumption].
Qed.

Lemma ParseUint_decimal (s : string) (u : Z) :
  SpecInt.unsigned_decimal s = Some u ->
  (u <= Strconv.maxUint64)%Z ->
  Strconv.ParseUint s = Strconv.UOk u.
Proof.
  unfold Strconv.ParseUint, SpecInt.unsigned_decimal.
  destruct s as [|c s]; [discriminate|].
  cbn [String.length Nat.ltb Nat.leb andb].
  destruct (forallb SpecInt.is_digit (list_ascii_of_string (String c s)))
    eqn:Hall; [|discriminate].
  intros [= <-] Hmax. apply digits_decimal; [lia | exact Hall | exact Hmax].
Qed.

Lemma ParseUint_value (s : string) (n : Z) :
  Strconv.ParseUint s = Strconv.UOk n ->
  SpecInt.unsigned_decimal s = Some n.
Proof.
  unfold Strconv.ParseUint, SpecInt.unsigned_decimal.
  destruct s as [|c s]; [discriminate|]. intros H.
  apply digits_value in H. destruct H as [-> ->]. reflexivity.
Qed.

Lemma ParseInt_decimal (s : string) :
  match SpecInt.decimal_int s with
  | Some v => Strconv.ParseInt s = (v, None)
  | None => exists v e, Strconv.ParseInt s = (v, Some e)
  end.
Proof.
  assert (Hm : Strconv.maxUint64 = 18446744073709551615%Z) by reflexivity.
  assert (Hrange : forall (neg : bool) (body : string),
    match
      match SpecInt.unsigned_decimal body with
      | Some u =>
          let v := if neg then (- u)%Z else u in
          if ((- 2 ^ 63 <=? v) && (v <=? 2 ^ 63 - 1))%Z then Some v else None
      | None => None
      end
    with
    | Some v =>
        match Strconv.ParseUint body with
        | Strconv.USyntax => (0%Z, Some (ErrNumSyntax s))
        | r =>
            let un := match r with
                      | Strconv.UOk n => n
                      | _ => Strconv.maxUint64
                      end in
            if negb neg && (Strconv.cutoff <=? un)%Z
            then ((Strconv.cutoff - 1)%Z, Some (ErrNumRange s))
            else if neg && (Strconv.cutoff <? un)%Z
            then ((- Strconv.cutoff)%Z, Some (ErrNumRange s))
            else ((if neg then - un else un)%Z, None)
        end = (v, None)
    | None =>
        exists v e,
          match Strconv.ParseUint body with
          | Strconv.USyntax => (0%Z, Some (ErrNumSyntax s))
          | r =>
              let un := match r with
                        | Strconv.UOk n => n
                        | _ => Strconv.maxUint64
                        end in
              if negb neg && (Strconv.cutoff <=? un)%Z
              then ((Strconv.cutoff - 1)%Z, Some (ErrNumRange s))
              else if neg && (Strconv.cutoff <? un)%Z
              then ((- Strconv.cutoff)%Z, Some (ErrNumRange s))
              else ((if neg then - un else un)%Z, None)
          end = (v, Some e)
    end).
  { intros neg body.
    destruct (SpecInt.unsigned_decimal body) as [u|] eqn:Hu.
    - pose proof (unsigned_decimal_nonneg _ _ Hu) as Hpos. cbv zeta.
      destruct ((- 2 ^ 63 <=? (if neg then - u else u))
                && ((if neg then - u else u) <=? 2 ^ 63 - 1))%Z eqn:Hin.
      + apply andb_prop in Hin. destruct Hin as [Hlo Hhi].
        apply Z.leb_le in Hlo, Hhi.
        rewrite (ParseUint_decimal body u Hu) by (destruct neg; lia).
        unfold Strconv.cutoff.
        destruct neg; cbn [negb andb];
          repeat match goal with
          | |- context [(?a <=? ?b)%Z] => destruct (Z.leb_spec a b)
          | |- context [(?a <? ?b)%Z] => destruct (Z.ltb_spec a b)
          end; cbn [andb]; first [reflexivity | lia].
      + destruct (Strconv.ParseUint body) as [n| |] eqn:HP; [| eauto |].
        * apply ParseUint_value in HP. rewrite Hu in HP.
          injection HP as <-. unfold Strconv.cutoff.
          apply andb_false_iff in Hin.
          destruct neg; cbn [negb andb];
            repeat match goal with
            | |- context [(?a <=? ?b)%Z] => destruct (Z.leb_spec a b)
            | |- context [(?a <? ?b)%Z] => destruct (Z.ltb_spec a b)
            end; cbn [andb]; eauto;
            destruct Hin as [Hin|Hin];
            first [apply Z.leb_gt in Hin | idtac]; lia.
        * destruct neg; cbn; eauto.
    - destruct (Strconv.ParseUint body) as [n| |] eqn:HP; [| eauto |].
      + apply ParseUint_value in HP. congruence.
      + destruct neg; cbn; eauto. }
  unfold SpecInt.decimal_int, Strconv.ParseInt.
  destruct s as [|c s']; [cbn; eauto|].
  destruct (Ascii.eqb c "-") eqn:Hminus.
  - cbn [orb]. rewrite orb_true_r. apply (Hrange true).
  - destruct (Ascii.eqb c "+"); cbn [orb]; apply (Hrange false).
Qed.

(** C7.  A negative truncation length: [parseTerm] reads the length with
    [strconv.ParseInt], which takes a sign, and checks no range, so the
    template [{x:-1}] is parsed without error to a term with
    [truncate = -1], and the term specification [x:-1*] passes the test
    of the two modifiers, which looks at [truncate > 0]. *)
Theorem Parse_accepts_negative_truncate :
  Parse "{x:-1}"
  = Ret (Some (mkTemplate "{x:-1}"
           [ zeroPart;
             mkPart "" [mkTerm "x" false (-1)] "" "," false "" false;
             zeroPart ]), None) /\
  parseTerm "x:-1*" = (mkTerm "x" true (-1), None).
Proof. split; vm_compute; reflexivity. Qed.

(** The part of it that the code keeps: a term specification with exactly
    one colon whose suffix is not a decimal integer (an optional sign and
    one or more digits, within 64 bits) is turned down with an error; a
    suffix that is one becomes the truncation length as it is, and when
    it is negative or zero the term is accepted whenever its name is
    valid. *)
Theorem parseTerm_truncate_suffix (term n num : string) :
  Strings.Split ":" (termBody term) = [n; num] ->
  match SpecInt.decimal_int num with
  | None => exists e, snd (parseTerm term) = Some e
  | Some v =>
      truncate (fst (parseTerm term)) = v /\
      (Regexp.validname_MatchString n = true -> (v <= 0)%Z ->
       snd (parseTerm term) = None)
  end.
Proof.
  intros Hsplit. unfold parseTerm, termBody in *.
  destruct (Strings.strip_suffix_byte "*" term) as [body|];
    rewrite Hsplit; pose proof (ParseInt_decimal num) as Hint;
    destruct (SpecInt.decimal_int num) as [v|].
  1,3: rewrite Hint; cbn [fst snd truncate]; split; [reflexivity|];
       intros Hname Hv; rewrite Hname; cbn [negb];
       destruct (Z.ltb_spec 0 v); [lia|]; rewrite ?andb_false_r;
       reflexivity.
  all: destruct Hint as (v & e & Hint); rewrite Hint; cbn [fst snd truncate];
       destruct (negb (Regexp.validname_MatchString n));
       match goal with
       | |- context [if ?b then _ else _] => destruct b
       end; eauto.
Qed.

Lemma parseTerm_truncate_suffix_witness :
  (exists e, snd (parseTerm "x:abc") = Some e) /\
  truncate (fst (parseTerm "x:-1")) = (-1)%Z /\
  snd (parseTerm "x:-1") = None.
Proof.
  split; [|split].
  - apply (parseTerm_truncate_suffix "x:abc" "x" "abc"). reflexivity.
  - apply (parseTerm_truncate_suffix "x:-1" "x" "-1"). reflexivity.
  - apply (parseTerm_truncate_suffix "x:-1" "x" "-1");
      [reflexivity | reflexivity | vm_compute; discriminate].
Defined.

(** ** Errors abort the whole operation *)

Lemma parseLoop_stops_at_error (split1 split2 : list string) :
  forall i parts parts' e,
    parseLoop i split1 parts = Ret (parts', Some e) ->
    parseLoop i (split1 ++ split2)%list parts = Ret (parts', Some e).
Proof.
  induction split1 as [|s rest IH]; intros i parts parts' e Hloop;
    [discriminate|].
  cbn [app parseLoop] in *. destruct (Nat.eqb i 0).
  - destruct (Strings.contains_byte "}" s); [exact Hloop|].
    destruct (store i (set_raw s) parts) as [ps|]; cbn [bind] in *;
      [apply IH; exact Hloop | discriminate].
  - destruct (Strings.Split "}" s) as [|expression [|lit [|x l]]];
      try exact Hloop.
    destruct (parseExpression expression) as [[part err]|]; cbn [bind] in *;
      [|discriminate].
    destruct (store (i * 2 - 1) (fun _ => part) parts) as [parts1|];
      cbn [bind] in *; [|discriminate].
    destruct err as [e'|]; [exact Hloop|].
    destruct (store (i * 2) (set_raw lit) parts1) as [parts2|];
      cbn [bind] in *; [apply IH; exact Hloop | discriminate].
Qed.

Lemma expandParts_error_empty (rt : Runtime) (ps : list templatePart)
    (values : gomap) :
  forall buf s e,
    expandParts rt ps buf values = Ret (s, Some e) -> s = "".
Proof.
  induction ps as [|p ps IH]; intros buf s e H; [discriminate|].
  cbn [expandParts] in H.
  destruct (expand rt p buf values) as [[b [e'|]]|]; cbn [bind] in H.
  - injection H as <- _. reflexivity.
  - eapply IH. exact H.
  - discriminate.
Qed.

Lemma Split_nonempty (c : ascii) (s : string) : Strings.Split c s <> [].
Proof.
  destruct s as [|d s]; cbn [Strings.Split]; [discriminate|].
  destruct (Strings.Split c s); [discriminate|].
  destruct (Ascii.eqb c d); discriminate.
Qed.

Lemma parseTerms_first_error (rawterms : list string) :
  forall i terms,
    i + List.length rawterms <= List.length terms ->
    exists ts,
      parseTerms i rawterms terms = Ret (ts, firstTermError rawterms).
Proof.
  induction rawterms as [|raw rest IH]; intros i terms Hlen;
    simpl in Hlen; cbn [parseTerms firstTermError].
  - eauto.
  - destruct (parseTerm raw) as [t err]. cbn [snd].
    destruct (store_returns i (fun _ => t) terms) as (terms' & Hs & Hl); [lia|].
    rewrite Hs. cbn [bind]. destruct err as [e|]; [eauto|].
    apply IH. lia.
Qed.

Lemma parseExpression_first_error (expression : string) :
  match expressionError expression with
  | Panic p => parseExpression expression = Panic p
  | Ret r => exists part, parseExpression expression = Ret (part, r)
  end.
Proof.
  destruct expression as [|c rest]; [reflexivity|].
  unfold expressionError, parseExpression.
  destruct (operator c) as [result consumed]. cbn [snd].
  match goal with |- context [parseTerms 0 ?r ?t] =>
    destruct (parseTerms_first_error r 0 t) as (ts & Hp)
  end.
  { rewrite repeat_length. simpl. lia. }
  rewrite Hp. cbn [bind]. eauto.
Qed.

Lemma parseLoop_first_error (rest : list string) :
  forall i parts,
    1 <= i ->
    (i + List.length rest) * 2 - 1 <= List.length parts ->
    match firstSegmentError rest with
    | Panic p => parseLoop i rest parts = Panic p
    | Ret r => exists ps, parseLoop i rest parts = Ret (ps, r)
    end.
Proof.
  induction rest as [|s rest IH]; intros i parts Hi Hlen;
    cbn [parseLoop firstSegmentError]; [eauto|].
  cbn [List.length] in Hlen. destruct (Nat.eqb_spec i 0) as [->|_]; [lia|].
  destruct (Strings.Split "}" s) as [|e [|lit [|x l]]]; eauto.
  pose proof (parseExpression_first_error e) as He.
  destruct (expressionError e) as [r|p]; [|rewrite He; reflexivity].
  destruct He as (part & ->). cbn [bind].
  destruct (store_returns (i * 2 - 1) (fun _ => part) parts)
    as (parts1 & -> & Hl1); [lia|]. cbn [bind].
  destruct r as [err|]; [eauto|].
  destruct (store_returns (i * 2) (set_raw lit) parts1)
    as (parts2 & -> & Hl2); [lia|]. cbn [bind].
  apply IH; lia.
Qed.

Lemma Parse_first_error (raw : string) :
  match templateError raw with
  | Panic p => Parse raw = Panic p
  | Ret (Some e) => Parse raw = Ret (None, Some e)
  | Ret None => exists t, Parse raw = Ret (Some t, None)
  end.
Proof.
  unfold templateError, Parse.
  pose proof (Split_nonempty "{" raw) as Hne.
  destruct (Strings.Split "{" raw) as [|s0 rest]; [contradiction|].
  cbn [parseLoop Nat.eqb].
  destruct (Strings.contains_byte "}" s0); [reflexivity|].
  destruct (store_returns 0 (set_raw s0)
              (repeat zeroPart (List.length (s0 :: rest) * 2 - 1)))
    as (parts' & -> & Hl); [rewrite repeat_length; simpl; lia|].
  cbn [bind].
  pose proof (parseLoop_first_error rest 1 parts') as Hloop.
  destruct (firstSegmentError rest) as [[e|]|p].
  - destruct Hloop as (ps & ->);
      [lia | rewrite Hl, repeat_length; simpl; lia | reflexivity].
  - destruct Hloop as (ps & ->);
      [lia | rewrite Hl, repeat_length; simpl; lia | cbn [bind]; eauto].
  - rewrite Hloop; [reflexivity | lia | rewrite Hl, repeat_length; simpl; lia].
Qed.

Lemma expandValue_first_error (rt : Runtime) (t : templatePart)
    (firstLen : nat) (term : templateTerm) (v : value) (buf : string) :
  match valueError rt term v with
  | Panic p => expandValue rt t firstLen term v buf = Panic p
  | Ret r => exists b, expandValue rt t firstLen term v buf = Ret (b, r)
  end.
Proof.
  unfold valueError, expandValue.
  destruct v as [|s|a|m|fields|p|text]; cbv zeta;
    try match goal with
    | |- context [struct2map rt ?v] =>
        destruct (struct2map rt v) as [[m|]|]
    end; cbn [bind]; try destruct (0 <? truncate term)%Z; eauto.
Qed.

Lemma expandTerms_first_error (rt : Runtime) (t : templatePart)
    (values : gomap) (firstLen : nat) (ts : list templateTerm) :
  forall buf,
    match firstValueError rt values ts with
    | Panic p => expandTerms rt t firstLen ts values buf = Panic p
    | Ret r => exists b, expandTerms rt t firstLen ts values buf = Ret (b, r)
    end.
Proof.
  induction ts as [|term rest IH]; intros buf;
    cbn [expandTerms firstValueError]; [eauto|].
  destruct (map_get (name term) values) as [v|]; [|apply IH].
  pose proof (expandValue_first_error rt t firstLen term v buf) as Hv.
  destruct (valueError rt term v) as [r|p]; [|rewrite Hv; reflexivity].
  destruct Hv as (b & ->). cbn [bind].
  destruct r as [e|]; [eauto | apply IH].
Qed.

Lemma expandParts_first_error (rt : Runtime) (values : gomap)
    (ps : list templatePart) :
  forall buf,
    match firstPartError rt values ps with
    | Panic p => expandParts rt ps buf values = Panic p
    | Ret (Some e) => expandParts rt ps buf values = Ret ("", Some e)
    | Ret None => exists s, expandParts rt ps buf values = Ret (s, None)
    end.
Proof.
  induction ps as [|p ps IH]; intros buf;
    cbn [expandParts firstPartError]; [eauto|].
  unfold expand. destruct (Nat.ltb 0 (String.length (raw p))).
  - cbn [bind]. apply IH.
  - cbv zeta.
    pose proof (expandTerms_first_error rt p values
                  (String.length (buf ++ first p)) (terms p)
                  (buf ++ first p)) as Ht.
    destruct (firstValueError rt values (terms p)) as [r|q];
      [|rewrite Ht; reflexivity].
    destruct Ht as (b & ->). cbn [bind].
    destruct r as [e|]; [reflexivity|].
    destruct (Nat.eqb _ _); cbn [bind]; apply IH.
Qed.

(** C9.  Errors are atomic and fail-fast.  [Parse] returns the error of
    the first segment, and in it of the first term specification, that is
    turned down, reading the template from the left, and with it no
    template; it returns a template only when there is no such error.
    [Template.Expand] returns the error of the first term, in the order
    of the parts and of their terms, whose value gives one, and with it
    the empty string; it returns a string only when there is no such
    error.  What stands after the place of the first error does not
    matter: the loops over the segments and over the parts stop there,
    and so does the package-level [Expand]. *)
Theorem errors_abort_everything (rt : Runtime) :
  (forall raw template e,
     Parse raw = Ret (template, Some e) -> template = None) /\
  (forall i split1 split2 parts parts' e,
     parseLoop i split1 parts = Ret (parts', Some e) ->
     parseLoop i (split1 ++ split2)%list parts = Ret (parts', Some e)) /\
  (forall t value s e,
     Template_Expand rt t value = Ret (s, Some e) -> s = "") /\
  (forall path expansions s e,
     Expand rt path expansions = Ret (s, Some e) -> s = "") /\
  (forall ps1 p ps2 values buf buf1 bufp e,
     expandParts rt ps1 buf values = Ret (buf1, None) ->
     expand rt p buf1 values = Ret (bufp, Some e) ->
     expandParts rt (ps1 ++ p :: ps2)%list buf values = Ret ("", Some e)) /\
  (forall raw,
     match templateError raw with
     | Panic p => Parse raw = Panic p
     | Ret (Some e) => Parse raw = Ret (None, Some e)
     | Ret None => exists t, Parse raw = Ret (Some t, None)
     end) /\
  (forall t values,
     match firstPartError rt values (parts t) with
     | Panic p => Template_Expand rt t (VMap values) = Panic p
     | Ret (Some e) => Template_Expand rt t (VMap values) = Ret ("", Some e)
     | Ret None => exists s, Template_Expand rt t (VMap values) = Ret (s, None)
     end).
Proof.
  assert (HT : forall t value s e,
     Template_Expand rt t value = Ret (s, Some e) -> s = "").
  { intros t value s e H. unfold Template_Expand in H.
    assert (Hother :
      (r <- struct2map rt value ;;
       match r with
       | None => Ret (EmptyString, Some ErrExpectedMap)
       | Some m => expandParts rt (parts t) EmptyString m
       end) = Ret (s, Some e) -> s = "").
    { destruct (struct2map rt value) as [[m|]|]; cbn [bind]; intros H'.
      - eapply expandParts_error_empty. exact H'.
      - injection H' as <- _. reflexivity.
      - discriminate. }
    destruct value; try (apply Hother; exact H).
    eapply expandParts_error_empty. exact H. }
  split; [|split; [|split; [|split; [|split; [|split]]]]].
  - intros raw template e H. unfold Parse in H.
    destruct (parseLoop 0 _ _) as [[ps [e'|]]|]; cbn [bind] in H;
      [injection H as <- _; reflexivity | discriminate | discriminate].
  - intros. apply parseLoop_stops_at_error. assumption.
  - exact HT.
  - intros path expansions s e H. unfold Expand in H.
    destruct (Parse path) as [[[t|] [e'|]]|]; cbn [bind] in H;
      try discriminate;
      try (injection H as <- _; reflexivity).
    eapply HT. exact H.
  - intros ps1 p ps2 values buf buf1 bufp e H1 Hp.
    rewrite expandParts_app, H1. cbn [bind expandParts].
    rewrite Hp. reflexivity.
  - exact Parse_first_error.
  - intros t values. cbn [Template_Expand].
    apply expandParts_first_error.
Qed.

Lemma errors_abort_everything_witness :
  (None : option Template) = None /\
  parseLoop 0 (["a"; "b"] ++ ["c}d"])%list (repeat zeroPart 5)
  = Ret ([set_raw "a" zeroPart; zeroPart; zeroPart; zeroPart; zeroPart],
         Some ErrMalformed) /\
  expandParts exampleRuntime
    ([mkPart "a" [] "" "" false "" false]
       ++ mkPart "" [mkTerm "x" false 3] "" "," false "" false
       :: [mkPart "b" [] "" "" false "" false])%list "" [("x", VMap [])]
  = Ret ("", Some ErrTruncateMap) /\
  Parse "a{x}b{!,y}c{" = Ret (None, Some (ErrInvalidName "!")) /\
  Template_Expand exampleRuntime
    (mkTemplate "a{x,m:3,y}b{y}"
       [ mkPart "a" [] "" "" false "" false;
         mkPart "" [mkTerm "x" false 0; mkTerm "m" false 3; mkTerm "y" false 0]
                "" "," false "" false;
         mkPart "b" [] "" "" false "" false;
         mkPart "" [mkTerm "y" false 0] "" "," false "" false;
         zeroPart ])
    (VMap [("x", VString "1"); ("m", VMap [("k", VString "v")]);
           ("y", VString "2")])
  = Ret ("", Some ErrTruncateMap).
Proof.
  destruct (errors_abort_everything exampleRuntime)
    as (Hparse & Hloop & Hexpand & _ & Hparts & Hfirst & Hvalue).
  split; [|split; [|split; [|split]]].
  - apply (Hparse "{a" None ErrMalformed). vm_compute. reflexivity.
  - apply (Hloop 0 ["a"; "b"] ["c}d"] (repeat zeroPart 5)).
    vm_compute. reflexivity.
  - apply (Hparts [mkPart "a" [] "" "" false "" false]
             (mkPart "" [mkTerm "x" false 3] "" "," false "" false)
             [mkPart "b" [] "" "" false "" false] [("x", VMap [])]
             "" "a" "a" ErrTruncateMap); vm_compute; reflexivity.
  - exact (Hfirst "a{x}b{!,y}c{").
  - exact (Hvalue
             (mkTemplate "a{x,m:3,y}b{y}"
                [ mkPart "a" [] "" "" false "" false;
                  mkPart "" [mkTerm "x" false 0; mkTerm "m" false 3;
                             mkTerm "y" false 0] "" "," false "" false;
                  mkPart "b" [] "" "" false "" false;
                  mkPart "" [mkTerm "y" false 0] "" "," false "" false;
                  zeroPart ])
             [("x", VString "1"); ("m", VMap [("k", VString "v")]);
              ("y", VString "2")]).
Defined.

(** Every value that is no map and that [struct2map] turns down gets the
    error and the empty string. *)
Lemma Template_Expand_unsupported (rt : Runtime) (t : Template) (v : value) :
  (forall m, v <> VMap m) ->
  struct2map rt v = Ret None ->
  Template_Expand rt t v = Ret ("", Some ErrExpectedMap).
Proof.
  intros Hmap H.
  destruct v; cbn [Template_Expand]; try (rewrite H; reflexivity).
  now destruct (Hmap m).
Qed.

(** ** [Parse] returns on every template without an empty expression body *)

Lemma parseLoop_returns (rest : list string) :
  forall i parts,
    1 <= i ->
    (i + List.length rest) * 2 - 1 <= List.length parts ->
    existsb emptyBody rest = false ->
    exists r, parseLoop i rest parts = Ret r.
Proof.
  induction rest as [|s rest IH]; intros i parts Hi Hlen Hbody;
    cbn [parseLoop]; [eauto|].
  cbn [existsb List.length] in *. apply orb_false_elim in Hbody.
  destruct Hbody as [Hs Hrest].
  destruct (Nat.eqb_spec i 0) as [->|_]; [lia|].
  unfold emptyBody in Hs.
  destruct (Strings.Split "}" s) as [|expression [|lit [|x l]]]; eauto.
  destruct expression as [|c body]; [discriminate|].
  destruct (parseExpression_returns c body) as (ts & err & ->). cbn [bind].
  destruct (store_returns (i * 2 - 1) (fun _ => set_terms ts (fst (operator c)))
              parts) as (parts1 & -> & Hl1); [lia|]. cbn [bind].
  destruct err as [e|]; [eauto|].
  destruct (store_returns (i * 2) (set_raw lit) parts1) as (parts2 & -> & Hl2);
    [lia|]. cbn [bind].
  apply IH; [lia | lia | assumption].
Qed.

(** The one way for [Parse] to panic is an empty expression body: on
    every other template it returns a template or an error. *)
Lemma Parse_returns (raw : string) :
  existsb emptyBody (tl (Strings.Split "{" raw)) = false ->
  exists r, Parse raw = Ret r.
Proof.
  intros Hbody. unfold Parse.
  pose proof (Split_nonempty "{" raw) as Hne.
  destruct (Strings.Split "{" raw) as [|s rest]; [contradiction|].
  cbn [tl] in Hbody.
  assert (Hloop : exists r,
    parseLoop 0 (s :: rest)
      (repeat zeroPart (List.length (s :: rest) * 2 - 1)) = Ret r).
  { cbn [parseLoop Nat.eqb].
    destruct (Strings.contains_byte "}" s); [eauto|].
    destruct (store_returns 0 (set_raw s)
                (repeat zeroPart (List.length (s :: rest) * 2 - 1)))
      as (parts' & -> & Hl); [rewrite repeat_length; simpl; lia|].
    cbn [bind]. apply parseLoop_returns; [lia | | assumption].
    rewrite Hl, repeat_length. simpl. lia. }
  destruct Hloop as ([ps [e|]] & ->); cbn [bind]; eauto.
Qed.

(** * Further properties of the code *)

(** ** [pctEncode] and [escape] *)

Lemma allBytes_app (p : ascii -> bool) (s t : string) :
  allBytes p (s ++ t) = allBytes p s && allBytes p t.
Proof.
  induction s as [|c s IH]; [reflexivity|].
  cbn [append allBytes]. rewrite IH, andb_assoc. reflexivity.
Qed.

Lemma encode_app (b : bool) (s t : string) :
  Spec.encode b (s ++ t) = Spec.encode b s ++ Spec.encode b t.
Proof.
  induction s as [|c s IH]; [reflexivity|].
  cbn [append Spec.encode]. rewrite IH, StringFacts.append_assoc.
  reflexivity.
Qed.

(** X1.  [escape] of a concatenation is the concatenation of the [escape]s,
    wherever the string is cut, also inside a multi-byte sequence. *)
Theorem escape_app (s t : string) (allowReserved : bool) :
  escape (s ++ t) allowReserved
  = escape s allowReserved ++ escape t allowReserved.
Proof. rewrite !escape_encode. apply encode_app. Qed.

Lemma triplet_safe (b : bool) (c : ascii) :
  allBytes (fun d => Spec.allowed b d || Ascii.eqb d "%") (Spec.triplet c)
  = true.
Proof. destruct b; each_byte c; reflexivity. Qed.

(** X2.  Every byte that [escape] writes is a byte of the set that the flag
    allows or the [%] of a triplet: no other byte of the value reaches the
    output. *)
Theorem escape_output_safe (s : string) (allowReserved : bool) :
  allBytes (fun c => Spec.allowed allowReserved c || Ascii.eqb c "%")
    (escape s allowReserved) = true.
Proof.
  rewrite escape_encode. induction s as [|c s IH]; [reflexivity|].
  cbn [Spec.encode]. rewrite allBytes_app, IH, andb_true_r.
  destruct (Spec.allowed allowReserved c) eqn:Hc.
  - cbn [allBytes]. rewrite Hc. reflexivity.
  - apply triplet_safe.
Qed.

Lemma pctEncode_length (src : string) :
  String.length (pctEncode src) = 3 * String.length src.
Proof. induction src as [|c s IH]; simpl; [reflexivity | rewrite IH; lia]. Qed.

Lemma encode_length (b : bool) (s : string) :
  String.length s <= String.length (Spec.encode b s) <= 3 * String.length s.
Proof.
  induction s as [|c s IH]; [simpl; lia|].
  cbn [Spec.encode]. rewrite StringFacts.length_append.
  destruct (Spec.allowed b c); simpl; lia.
Qed.

(** X3.  [pctEncode] writes three bytes for every byte, and [escape] returns a
    string at least as long as the value and at most three times as
    long. *)
Theorem escape_length (s : string) (allowReserved : bool) :
  String.length (pctEncode s) = 3 * String.length s /\
  String.length s <= String.length (escape s allowReserved)
    <= 3 * String.length s.
Proof.
  split; [apply pctEncode_length|]. rewrite escape_encode.
  apply encode_length.
Qed.

(** X4.  [escape] returns the value itself exactly when every byte of the
    value is in the set that the flag allows. *)
Theorem escape_fixed_point (s : string) (allowReserved : bool) :
  escape s allowReserved = s
  <-> allBytes (Spec.allowed allowReserved) s = true.
Proof.
  rewrite escape_encode. induction s as [|c s IH]; [now split|].
  cbn [Spec.encode allBytes].
  destruct (Spec.allowed allowReserved c) eqn:Hc; cbn [andb append].
  - rewrite <- IH. split; [intros [= H]; exact H | intros ->; reflexivity].
  - split; [|discriminate]. intros H. exfalso.
    apply (f_equal String.length) in H. cbn in H.
    pose proof (encode_length allowReserved s). lia.
Qed.

Lemma unescape_triplet (c : ascii) (rest : string) :
  unescape (Spec.triplet c ++ rest) = String c (unescape rest).
Proof. each_byte c; reflexivity. Qed.

Lemma percent_not_allowed (b : bool) : Spec.allowed b "%" = false.
Proof. destruct b; reflexivity. Qed.

Lemma unescape_encode (b : bool) (s : string) :
  unescape (Spec.encode b s) = s.
Proof.
  induction s as [|c s IH]; [reflexivity|]. cbn [Spec.encode].
  destruct (Spec.allowed b c) eqn:Hc.
  - cbn [append unescape]. destruct (Ascii.eqb_spec c "%") as [->|_].
    + rewrite percent_not_allowed in Hc. discriminate.
    + rewrite IH. reflexivity.
  - rewrite unescape_triplet, IH. reflexivity.
Qed.

(** X5.  [escape] loses nothing: two values with the same escaped form are the
    same value (reading every triplet of the result back as a byte gives
    the value). *)
Theorem escape_injective (s t : string) (allowReserved : bool) :
  escape s allowReserved = escape t allowReserved -> s = t.
Proof.
  rewrite !escape_encode. intros H. apply (f_equal unescape) in H.
  rewrite !unescape_encode in H. exact H.
Qed.

Lemma escape_injective_witness : "a b/c" = "a b/c".
Proof.
  apply (escape_injective "a b/c" "a b/c" false). reflexivity.
Defined.

(** ** The parser *)

Lemma Split_no_sep (c : ascii) (s : string) :
  Strings.contains_byte c s = false -> Strings.Split c s = [s].
Proof.
  induction s as [|d s IH]; intros H; [reflexivity|].
  cbn [Strings.contains_byte] in H. apply orb_false_elim in H.
  destruct H as [Hd Hs]. cbn [Strings.Split]. rewrite (IH Hs), Hd.
  reflexivity.
Qed.

Lemma Split_app_sep (c : ascii) (pre rest : string) :
  Strings.contains_byte c pre = false ->
  Strings.Split c (pre ++ String c rest) = pre :: Strings.Split c rest.
Proof.
  induction pre as [|d pre IH]; intros H.
  - cbn [append Strings.Split]. pose proof (Split_nonempty c rest) as Hne.
    destruct (Strings.Split c rest); [contradiction|].
    rewrite Ascii.eqb_refl. reflexivity.
  - cbn [Strings.contains_byte] in H. apply orb_false_elim in H.
    destruct H as [Hd Hs]. cbn [append Strings.Split].
    rewrite (IH Hs), Hd. reflexivity.
Qed.

Lemma Split_length (c : ascii) (s : string) :
  List.length (Strings.Split c s) = S (countByte c s).
Proof.
  induction s as [|d s IH]; [reflexivity|].
  cbn [Strings.Split countByte].
  destruct (Strings.Split c s) as [|seg segs]; [discriminate|].
  destruct (Ascii.eqb c d); cbn [List.length] in *; lia.
Qed.

Lemma contains_count (c : ascii) (s : string) :
  Strings.contains_byte c s = negb (Nat.eqb (countByte c s) 0).
Proof.
  induction s as [|d s IH]; [reflexivity|].
  cbn [Strings.contains_byte countByte]. rewrite IH.
  destruct (Ascii.eqb c d); reflexivity.
Qed.

Lemma store_app {A : Type} (f : A -> A) (done : list A) (x : A)
    (rest : list A) :
  store (List.length done) f (done ++ x :: rest)%list
  = Ret (done ++ f x :: rest)%list.
Proof.
  induction done as [|y done IH]; [reflexivity|].
  cbn [List.length app store]. rewrite IH. reflexivity.
Qed.

Lemma store_head {A : Type} (f : A -> A) (x : A) (rest : list A) :
  store 0 f (x :: rest) = Ret (f x :: rest).
Proof. reflexivity. Qed.

(** X6.  The first segment of a template, the one before any opening brace,
    holds a closing brace: [Parse] returns the error "unexpected }" and no
    template, whatever follows. *)
Theorem Parse_unexpected_close (pre rest : string) :
  Strings.contains_byte "{" pre = false ->
  Strings.contains_byte "}" pre = true ->
  Parse pre = Ret (None, Some ErrUnexpectedClose) /\
  Parse (pre ++ String "{" rest) = Ret (None, Some ErrUnexpectedClose).
Proof.
  intros Hopen Hclose. unfold Parse. split.
  - rewrite (Split_no_sep _ _ Hopen). cbn [parseLoop Nat.eqb].
    rewrite Hclose. reflexivity.
  - rewrite (Split_app_sep _ _ rest Hopen). cbn [parseLoop Nat.eqb].
    rewrite Hclose. reflexivity.
Qed.

Lemma Parse_unexpected_close_witness :
  Parse "a}b" = Ret (None, Some ErrUnexpectedClose) /\
  Parse ("a}b" ++ String "{" "x}") = Ret (None, Some ErrUnexpectedClose).
Proof.
  apply (Parse_unexpected_close "a}b" "x}"); reflexivity.
Defined.

(** X7.  The first segment after an opening brace does not hold exactly one
    closing brace: [Parse] returns the error "malformed template" and no
    template, whatever follows the segment. *)
Theorem Parse_malformed (pre seg rest : string) :
  Strings.contains_byte "{" pre = false ->
  Strings.contains_byte "}" pre = false ->
  Strings.contains_byte "{" seg = false ->
  countByte "}" seg <> 1 ->
  Parse (pre ++ String "{" seg) = Ret (None, Some ErrMalformed) /\
  Parse (pre ++ String "{" (seg ++ String "{" rest))
  = Ret (None, Some ErrMalformed).
Proof.
  intros Hopen Hclose Hseg Hcount.
  assert (Hlen : List.length (Strings.Split "}" seg) <> 2).
  { rewrite Split_length. lia. }
  unfold Parse. split.
  - rewrite (Split_app_sep _ _ seg Hopen), (Split_no_sep _ _ Hseg).
    cbn [List.length Nat.mul Nat.add Nat.sub repeat parseLoop Nat.eqb store
         bind]. rewrite Hclose. cbn [bind parseLoop Nat.eqb].
    destruct (Strings.Split "}" seg) as [|a [|b [|x y]]]; try reflexivity.
    now destruct Hlen.
  - rewrite (Split_app_sep _ _ _ Hopen), (Split_app_sep _ _ rest Hseg).
    cbn [parseLoop Nat.eqb]. rewrite Hclose.
    destruct (store_returns 0 (set_raw pre)
      (repeat zeroPart
         (List.length (pre :: seg :: Strings.Split "{" rest) * 2 - 1)))
      as (parts' & -> & _).
    { rewrite repeat_length. cbn [List.length]. lia. }
    cbn [bind parseLoop Nat.eqb].
    destruct (Strings.Split "}" seg) as [|a [|b [|x y]]]; try reflexivity.
    now destruct Hlen.
Qed.

Lemma Parse_malformed_witness :
  Parse ("a" ++ String "{" "x") = Ret (None, Some ErrMalformed) /\
  Parse ("a" ++ String "{" ("x" ++ String "{" "y}"))
  = Ret (None, Some ErrMalformed).
Proof.
  apply (Parse_malformed "a" "x" "y}"); try reflexivity.
  simpl. lia.
Defined.

Lemma parseTerm_no_error (raw : string) :
  snd (parseTerm raw) = None -> wellFormedTerm (fst (parseTerm raw)) = true.
Proof.
  unfold parseTerm, wellFormedTerm.
  destruct (Strings.strip_suffix_byte "*" raw) as [body|];
    match goal with
    | |- context [Strings.Split ":" ?b] =>
        destruct (Strings.Split ":" b) as [|n [|num [|x l]]]
    end;
    try destruct (Strconv.ParseInt num) as [parsed e];
    cbn [fst snd name explode truncate];
    match goal with
    | |- context [(0 <? ?z)%Z] => destruct (0 <? z)%Z
    end;
    match goal with
    | |- context [Regexp.validname_MatchString ?n] =>
        destruct (Regexp.validname_MatchString n)
    end; cbn [negb andb]; intros H; try discriminate; reflexivity.
Qed.

Lemma parseTerms_terms (rawterms : list string) :
  forall done ts,
    parseTerms (List.length done) rawterms
      (done ++ repeat zeroTerm (List.length rawterms))%list = Ret (ts, None) ->
    ts = (done ++ map (fun r => fst (parseTerm r)) rawterms)%list /\
    forallb (fun r => wellFormedTerm (fst (parseTerm r))) rawterms = true.
Proof.
  induction rawterms as [|raw rest IH]; intros done ts H.
  - cbn in H. injection H as <-. split; reflexivity.
  - cbn [parseTerms List.length repeat] in H.
    destruct (parseTerm raw) as [t err] eqn:Ht.
    rewrite store_app in H. cbn [bind] in H.
    destruct err as [e|]; [discriminate|].
    replace (done ++ t :: repeat zeroTerm (List.length rest))%list
      with ((done ++ [t]) ++ repeat zeroTerm (List.length rest))%list in H
      by (rewrite <- app_assoc; reflexivity).
    replace (S (List.length done)) with (List.length (done ++ [t])%list) in H
      by (rewrite length_app; simpl; lia).
    apply IH in H. destruct H as [-> Hall]. cbn [map forallb].
    rewrite Hall, andb_true_r, <- app_assoc. split.
    + rewrite Ht. reflexivity.
    + apply parseTerm_no_error. rewrite Ht. reflexivity.
Qed.

Lemma parseExpression_no_error (e : string) (p : templatePart) :
  parseExpression e = Ret (p, None) ->
  raw p = "" /\ terms p <> [] /\ forallb wellFormedTerm (terms p) = true.
Proof.
  destruct e as [|c rest]; [discriminate|]. unfold parseExpression.
  assert (Hop : raw (fst (operator c)) = "") by (each_byte c; reflexivity).
  destruct (operator c) as [result consumed]. cbn [fst] in Hop.
  set (rawterms := Strings.Split "," (if consumed then rest else String c rest)).
  destruct (parseTerms 0 rawterms (repeat zeroTerm (List.length rawterms)))
    as [[ts err]|] eqn:Hts; cbn [bind]; [|discriminate].
  intros [= <- ->].
  apply (parseTerms_terms rawterms []) in Hts. destruct Hts as [-> Hall].
  cbn [set_terms raw terms app]. repeat split.
  - exact Hop.
  - pose proof (Split_nonempty "," (if consumed then rest else String c rest)).
    fold rawterms in H. destruct rawterms; [contradiction | discriminate].
  - rewrite forallb_forall in *. intros t Ht. apply in_map_iff in Ht.
    destruct Ht as (r & <- & Hr). apply Hall. exact Hr.
Qed.

Lemma parseLoop_parts (rest : list string) :
  forall i done parts',
    1 <= i ->
    List.length done = i * 2 - 1 ->
    parseLoop i rest (done ++ repeat zeroPart (List.length rest * 2))%list
    = Ret (parts', None) ->
    parts' = (done ++ flat_map segmentParts rest)%list /\
    List.length (flat_map segmentParts rest) = List.length rest * 2 /\
    forallb wellFormedPart (flat_map segmentParts rest) = true /\
    alternate true (flat_map segmentParts rest) = true.
Proof.
  induction rest as [|s rest IH]; intros i done parts' Hi Hlen H.
  - cbn in H. injection H as <-. cbn. rewrite app_nil_r. repeat split.
  - cbn [parseLoop] in H. destruct (Nat.eqb_spec i 0) as [->|_]; [lia|].
    cbn [flat_map]. unfold segmentParts at 1 3 5 7, expressionPart.
    destruct (Strings.Split "}" s) as [|e [|lit [|x l]]]; try discriminate.
    destruct (parseExpression e) as [[part err]|] eqn:He; cbn [bind] in H;
      [|discriminate].
    replace (List.length (s :: rest) * 2) with (S (S (List.length rest * 2)))
      in H by (cbn [List.length]; lia).
    cbn [repeat] in H. rewrite <- Hlen, store_app in H. cbn [bind] in H.
    destruct err as [e'|]; [discriminate|].
    replace (done ++ part :: zeroPart
               :: repeat zeroPart (List.length rest * 2))%list
      with ((done ++ [part]) ++ zeroPart
              :: repeat zeroPart (List.length rest * 2))%list in H
      by (rewrite <- app_assoc; reflexivity).
    replace (i * 2) with (List.length (done ++ [part])%list) in H
      by (rewrite length_app; simpl; lia).
    rewrite store_app in H. cbn [bind] in H.
    replace ((done ++ [part]) ++ set_raw lit zeroPart
               :: repeat zeroPart (List.length rest * 2))%list
      with ((done ++ [part; set_raw lit zeroPart])
              ++ repeat zeroPart (List.length rest * 2))%list in H
      by (rewrite <- !app_assoc; reflexivity).
    apply IH in H; [| lia | rewrite length_app; simpl; lia].
    destruct H as (-> & Hl & Hall & Halt).
    destruct (parseExpression_no_error e part He) as (Hraw & Hne & Hterms).
    split; [|split; [|split]].
    + rewrite <- app_assoc. reflexivity.
    + cbn [app List.length]. rewrite Hl. lia.
    + cbn [app forallb]. rewrite Hall, andb_true_r.
      unfold wellFormedPart. destruct (terms part) as [|t ts] eqn:Hts;
        [contradiction|]. rewrite Hraw, Hterms. reflexivity.
    + cbn [app alternate negb]. rewrite Halt, andb_true_r.
      unfold isExpression. rewrite Hraw, Hterms.
      destruct (terms part); [contradiction | reflexivity].
Qed.

(** X8.  When [Parse] returns a template, the template holds the string it was
    parsed from, and its parts are, in order, the literal before the first
    opening brace and, for every segment after an opening brace, the
    expression before the closing brace and the literal after it; every
    expression has no literal text, at least one term, and only terms
    with a valid name that do not both explode and truncate, and every
    literal has no term and no operator field set. *)
Theorem Parse_parts (raw : string) (t : Template) :
  Parse raw = Ret (Some t, None) ->
  t = mkTemplate raw (templateParts raw) /\
  List.length (parts t) = List.length (Strings.Split "{" raw) * 2 - 1 /\
  forallb wellFormedPart (parts t) = true /\
  alternate false (parts t) = true.
Proof.
  unfold Parse, templateParts. intros H.
  pose proof (Split_nonempty "{" raw) as Hne.
  destruct (Strings.Split "{" raw) as [|s0 rest]; [contradiction|].
  cbn [parseLoop Nat.eqb] in H.
  destruct (Strings.contains_byte "}" s0); [discriminate|].
  replace (List.length (s0 :: rest) * 2 - 1) with (S (List.length rest * 2))
    in * by (cbn [List.length]; lia).
  cbn [repeat] in H. rewrite store_head in H. cbn [bind] in H.
  destruct (parseLoop 1 rest _) as [[ps err]|] eqn:Hloop; cbn [bind] in H;
    [|discriminate].
  destruct err as [e|]; [discriminate|]. injection H as <-.
  apply (parseLoop_parts rest 1 [set_raw s0 zeroPart]) in Hloop;
    [| lia | reflexivity].
  destruct Hloop as (-> & Hl & Hall & Halt). cbn [app parts].
  split; [|split; [|split]].
  - reflexivity.
  - cbn [List.length]. rewrite Hl. reflexivity.
  - cbn [forallb]. rewrite Hall. reflexivity.
  - cbn [alternate negb]. rewrite Halt. reflexivity.
Qed.

Lemma Parse_parts_witness :
  mkTemplate "a{?x,y*}b"
    [ mkPart "a" [] "" "" false "" false;
      mkPart "" [mkTerm "x" false 0; mkTerm "y" true 0] "?" "&" true "=" false;
      mkPart "b" [] "" "" false "" false ]
  = mkTemplate "a{?x,y*}b" (templateParts "a{?x,y*}b").
Proof.
  apply (Parse_parts "a{?x,y*}b"). vm_compute. reflexivity.
Defined.

(** ** Term specifications *)

Lemma contains_app (c : ascii) (s t : string) :
  Strings.contains_byte c (s ++ t)
  = Strings.contains_byte c s || Strings.contains_byte c t.
Proof.
  induction s as [|d s IH]; [reflexivity|].
  cbn [append Strings.contains_byte]. rewrite IH, orb_assoc. reflexivity.
Qed.

Lemma allBytes_contains (p : ascii -> bool) (c : ascii) (s : string) :
  allBytes p s = true -> p c = false -> Strings.contains_byte c s = false.
Proof.
  intros Hall Hc. induction s as [|d s IH]; [reflexivity|].
  cbn [allBytes Strings.contains_byte] in *. apply andb_prop in Hall.
  destruct Hall as [Hd Hs]. rewrite (IH Hs), orb_false_r.
  destruct (Ascii.eqb_spec c d) as [->|_]; [congruence | reflexivity].
Qed.

Lemma strip_suffix_absent (c : ascii) (s : string) :
  Strings.contains_byte c s = false -> Strings.strip_suffix_byte c s = None.
Proof.
  induction s as [|d s IH]; intros H; [reflexivity|].
  cbn [Strings.contains_byte] in H. apply orb_false_elim in H.
  destruct H as [Hd Hs]. cbn [Strings.strip_suffix_byte].
  rewrite Hd, (IH Hs). destruct s; reflexivity.
Qed.

Lemma strip_suffix_app (c : ascii) (s : string) :
  Strings.strip_suffix_byte c (s ++ String c "") = Some s.
Proof.
  induction s as [|d s IH].
  - cbn. rewrite Ascii.eqb_refl. reflexivity.
  - cbn [append Strings.strip_suffix_byte]. rewrite IH.
    destruct s; reflexivity.
Qed.

Lemma name_units_bytes (s : string) :
  Regexp.name_units s = true -> allBytes nameByte s = true.
Proof.
  remember (String.length s) as n eqn:Hn. revert s Hn.
  induction n as [n IH] using lt_wf_ind. intros [|c s] Hn H; [reflexivity|].
  cbn [Regexp.name_units allBytes] in *. unfold nameByte at 1.
  destruct (Regexp.name_class c) eqn:Hc; cbn [orb andb].
  - apply (IH (String.length s)); [subst n; simpl; lia | reflexivity | exact H].
  - destruct (Ascii.eqb c "%"); [|discriminate]. cbn [andb].
    destruct s as [|h1 [|h2 s'']]; try discriminate.
    apply andb_prop in H. destruct H as [H12 H].
    apply andb_prop in H12. destruct H12 as [H1 H2].
    assert (Hhex : forall h, Regexp.is_hex h = true -> nameByte h = true).
    { intros h. unfold nameByte. each_byte h; cbn; intros; congruence. }
    cbn [allBytes]. rewrite (Hhex h1 H1), (Hhex h2 H2). cbn [andb].
    apply (IH (String.length s'')); [subst n; simpl; lia | reflexivity | exact H].
Qed.

Lemma validname_bytes (s : string) :
  Regexp.validname_MatchString s = true -> allBytes nameByte s = true.
Proof.
  destruct s as [|c s]; [discriminate|]. apply name_units_bytes.
Qed.

Lemma unsigned_decimal_bytes (ds : string) (u : Z) :
  SpecInt.unsigned_decimal ds = Some u ->
  allBytes SpecInt.is_digit ds = true.
Proof.
  unfold SpecInt.unsigned_decimal.
  destruct (Nat.ltb 0 (String.length ds)); [|discriminate]. cbn [andb].
  destruct (forallb SpecInt.is_digit (list_ascii_of_string ds)) eqn:Hall;
    [|discriminate].
  intros _. induction ds as [|c ds IH]; [reflexivity|].
  cbn [list_ascii_of_string forallb allBytes] in *.
  apply andb_prop in Hall. destruct Hall as [-> Hds]. apply IH. exact Hds.
Qed.

Lemma decimal_int_bytes (num : string) (v : Z) (c : ascii) :
  SpecInt.decimal_int num = Some v ->
  SpecInt.is_digit c = false -> Ascii.eqb c "-" = false ->
  Ascii.eqb c "+" = false ->
  Strings.contains_byte c num = false.
Proof.
  unfold SpecInt.decimal_int. intros H Hd Hm Hp.
  assert (Hds : forall ds u, SpecInt.unsigned_decimal ds = Some u ->
                Strings.contains_byte c ds = false).
  { intros ds u Hu. apply unsigned_decimal_bytes in Hu.
    apply (allBytes_contains _ _ _ Hu Hd). }
  destruct num as [|d ds].
  - destruct (SpecInt.unsigned_decimal "") eqn:Hu; [|discriminate].
    apply (Hds _ _ Hu).
  - destruct (Ascii.eqb_spec d "-") as [->|_];
      [|destruct (Ascii.eqb_spec d "+") as [->|_]].
    + destruct (SpecInt.unsigned_decimal ds) eqn:Hu; [|discriminate].
      cbn [Strings.contains_byte]. rewrite Hm, (Hds _ _ Hu). reflexivity.
    + destruct (SpecInt.unsigned_decimal ds) eqn:Hu; [|discriminate].
      cbn [Strings.contains_byte]. rewrite Hp, (Hds _ _ Hu). reflexivity.
    + destruct (SpecInt.unsigned_decimal (String d ds)) eqn:Hu; [|discriminate].
      apply (Hds _ _ Hu).
Qed.

Lemma Split_name_number (n num : string) (v : Z) :
  Strings.contains_byte ":" n = false ->
  SpecInt.decimal_int num = Some v ->
  Strings.Split ":" (n ++ String ":" num) = [n; num].
Proof.
  intros Hn Hnum. rewrite (Split_app_sep _ _ _ Hn).
  rewrite Split_no_sep; [reflexivity|].
  apply (decimal_int_bytes num v); [exact Hnum | reflexivity..].
Qed.

(** X9.  A term specification that ends in [*] after a colon and a positive
    decimal length is turned down with the error of the two modifiers,
    whatever its name is. *)
Theorem parseTerm_explode_and_prefix (n num : string) (v : Z) :
  Strings.contains_byte ":" n = false ->
  SpecInt.decimal_int num = Some v ->
  (0 < v)%Z ->
  parseTerm (n ++ String ":" num ++ "*")
  = (mkTerm n true v, Some ErrExplodeAndPrefix).
Proof.
  intros Hn Hnum Hv. unfold parseTerm.
  replace (n ++ String ":" num ++ "*") with ((n ++ String ":" num) ++ "*")
    by (rewrite StringFacts.append_assoc; reflexivity).
  rewrite strip_suffix_app, (Split_name_number n num v Hn Hnum).
  pose proof (ParseInt_decimal num) as Hint. rewrite Hnum in Hint.
  rewrite Hint. destruct (Z.ltb_spec 0 v); [|lia]. reflexivity.
Qed.

Lemma parseTerm_explode_and_prefix_witness :
  parseTerm ("x" ++ String ":" "3" ++ "*")
  = (mkTerm "x" true 3, Some ErrExplodeAndPrefix).
Proof.
  apply (parseTerm_explode_and_prefix "x" "3" 3); [reflexivity.. | lia].
Defined.

Lemma ParseInt_error_kind (s : string) (v : Z) (e : error) :
  Strconv.ParseInt s = (v, Some e) -> e = ErrNumSyntax s \/ e = ErrNumRange s.
Proof.
  unfold Strconv.ParseInt. destruct s as [|c s']; [intros [= _ <-]; auto|].
  destruct (Strconv.ParseUint _) as [un| |]; cbv zeta;
    repeat match goal with
    | |- context [if ?b then _ else _] => destruct b
    end; intros [= _ <-]; auto.
Qed.

(** X10.  A term specification with two or more colons is turned down, and the
    error is the one of an invalid (empty) name: the error "multiple
    colons in same term" is overwritten before [parseTerm] returns, and no
    term specification ever gets it. *)
Theorem parseTerm_multiple_colons (term : string) :
  (2 <= countByte ":" (termBody term) ->
   snd (parseTerm term) = Some (ErrInvalidName "")) /\
  snd (parseTerm term) <> Some ErrMultipleColons.
Proof.
  unfold parseTerm, termBody.
  destruct (Strings.strip_suffix_byte "*" term) as [body|];
    match goal with
    | |- context [Strings.Split ":" ?b] =>
        pose proof (Split_length ":" b) as Hl;
        destruct (Strings.Split ":" b) as [|n [|num [|x l]]]
    end;
    try (destruct (Strconv.ParseInt num) as [parsed [e|]] eqn:HP;
         [destruct (ParseInt_error_kind _ _ _ HP) as [-> | ->]|]);
    cbn [fst snd name explode truncate List.length] in *;
    change (0 <? 0)%Z with false;
    change (Regexp.validname_MatchString "") with false;
    cbn [andb negb];
    (split; [intros Hc; try lia|]);
    repeat match goal with
    | |- context [if ?b then _ else _] => destruct b
    end; first [reflexivity | discriminate].
Qed.

Lemma parseTerm_multiple_colons_witness :
  snd (parseTerm "a:1:2") = Some (ErrInvalidName "").
Proof.
  apply (parseTerm_multiple_colons "a:1:2"). simpl. lia.
Defined.

(** X11.  The three shapes of a well-formed term specification: a valid name is
    parsed to the term of that name without modifier, the name followed by
    [*] to the exploding term, and the name followed by a colon and a
    decimal integer to the term with that truncation length; none gives an
    error. *)
Theorem parseTerm_well_formed (n num : string) (v : Z) :
  Regexp.validname_MatchString n = true ->
  SpecInt.decimal_int num = Some v ->
  parseTerm n = (mkTerm n false 0, None) /\
  parseTerm (n ++ "*") = (mkTerm n true 0, None) /\
  parseTerm (n ++ String ":" num) = (mkTerm n false v, None).
Proof.
  intros Hname Hnum.
  pose proof (validname_bytes n Hname) as Hbytes.
  assert (Hcolon : Strings.contains_byte ":" n = false)
    by (apply (allBytes_contains _ _ _ Hbytes); reflexivity).
  assert (Hstar : Strings.contains_byte "*" n = false)
    by (apply (allBytes_contains _ _ _ Hbytes); reflexivity).
  unfold parseTerm. repeat split.
  - rewrite (strip_suffix_absent _ _ Hstar), (Split_no_sep _ _ Hcolon), Hname.
    reflexivity.
  - rewrite strip_suffix_app, (Split_no_sep _ _ Hcolon), Hname. reflexivity.
  - rewrite strip_suffix_absent.
    2:{ rewrite contains_app, Hstar. cbn [Strings.contains_byte orb].
        apply (decimal_int_bytes num v); [exact Hnum | reflexivity..]. }
    rewrite (Split_name_number n num v Hcolon Hnum).
    pose proof (ParseInt_decimal num) as Hint. rewrite Hnum in Hint.
    rewrite Hint, Hname. reflexivity.
Qed.

Lemma parseTerm_well_formed_witness :
  parseTerm "user.id" = (mkTerm "user.id" false 0, None) /\
  parseTerm ("user.id" ++ "*") = (mkTerm "user.id" true 0, None) /\
  parseTerm ("user.id" ++ String ":" "12") = (mkTerm "user.id" false 12, None).
Proof.
  apply (parseTerm_well_formed "user.id" "12" 12); reflexivity.
Defined.

(** ** The expander and its buffer *)

Lemma take_app_length (b y : string) (n : nat) :
  Strings.take (String.length b + n) (b ++ y) = b ++ Strings.take n y.
Proof. induction b as [|c b IH]; [reflexivity | simpl; now rewrite IH]. Qed.

Lemma eqb_length_app (b x : string) (n : nat) :
  Nat.eqb (String.length (b ++ x)) (String.length b + n)
  = Nat.eqb (String.length x) n.
Proof.
  rewrite StringFacts.length_append.
  destruct (Nat.eqb_spec (String.length x) n);
    destruct (Nat.eqb_spec (String.length b + String.length x)
                (String.length b + n)); (reflexivity || lia).
Qed.

Section Buffer.

Context (rt : Runtime) (t : templatePart) (b : string).

Lemma expandName_prepend (x n : string) (e : bool) :
  expandName t (b ++ x) n e = b ++ expandName t x n e.
Proof.
  unfold expandName. destruct (named t); [|reflexivity].
  destruct e; rewrite !StringFacts.append_assoc; reflexivity.
Qed.

Lemma expandString_prepend (x : string) (term : templateTerm) (s : string) :
  expandString t (b ++ x) term s = b ++ expandString t x term s.
Proof.
  unfold expandString. rewrite expandName_prepend, StringFacts.append_assoc.
  reflexivity.
Qed.

Lemma expandArrayLoop_prepend (term : templateTerm) (a : list value) :
  forall i x,
    expandArrayLoop rt t term i a (b ++ x)
    = b ++ expandArrayLoop rt t term i a x.
Proof.
  induction a as [|v a IH]; intros i x; [reflexivity|].
  cbn [expandArrayLoop]. cbv zeta.
  rewrite <- IH. f_equal.
  destruct (explode term && Nat.ltb 0 i), (Nat.ltb 0 i),
    (named t && explode term);
    rewrite ?StringFacts.append_assoc, ?expandName_prepend,
      ?StringFacts.append_assoc; reflexivity.
Qed.

Lemma expandArray_prepend (x : string) (term : templateTerm)
    (a : list value) :
  expandArray rt t (b ++ x) term a = b ++ expandArray rt t x term a.
Proof.
  unfold expandArray. destruct (Nat.eqb (List.length a) 0); [reflexivity|].
  destruct (negb (explode term));
    rewrite ?expandName_prepend; apply expandArrayLoop_prepend.
Qed.

Lemma expandMapLoop_prepend (term : templateTerm) (m : gomap) :
  forall firstLen x,
    expandMapLoop rt t term (String.length b + firstLen) m (b ++ x)
    = b ++ expandMapLoop rt t term firstLen m x.
Proof.
  induction m as [|[k v] m IH]; intros firstLen x; [reflexivity|].
  cbn [expandMapLoop]. cbv zeta. rewrite <- IH. f_equal.
  rewrite (Nat.eqb_sym (String.length b + firstLen)), eqb_length_app,
    (Nat.eqb_sym (String.length x)).
  destruct (negb (Nat.eqb firstLen (String.length x))), (explode term);
    rewrite ?StringFacts.append_assoc; reflexivity.
Qed.

Lemma expandMap_prepend (x : string) (term : templateTerm) (m : gomap) :
  expandMap rt t (b ++ x) term m = b ++ expandMap rt t x term m.
Proof.
  unfold expandMap. destruct (Nat.eqb (List.length m) 0); [reflexivity|].
  destruct (negb (explode term)).
  - rewrite expandName_prepend, StringFacts.length_append.
    apply expandMapLoop_prepend.
  - rewrite StringFacts.length_append. apply expandMapLoop_prepend.
Qed.

Lemma expandValue_prepend (firstLen : nat) (term : templateTerm)
    (v : value) (x : string) :
  expandValue rt t (String.length b + firstLen) term v (b ++ x)
  = prepend b (expandValue rt t firstLen term v x).
Proof.
  unfold expandValue. rewrite eqb_length_app.
  set (x' := if negb (Nat.eqb (String.length x) firstLen)
             then x ++ sep t else x).
  replace (if negb (Nat.eqb (String.length x) firstLen)
           then (b ++ x) ++ sep t else b ++ x) with (b ++ x')
    by (unfold x'; destruct (negb _);
        rewrite ?StringFacts.append_assoc; reflexivity).
  assert (Hmap : forall m,
    (if (0 <? truncate term)%Z
     then Ret (b ++ x', Some ErrTruncateMap)
     else Ret (expandMap rt t (b ++ x') term m, None))
    = prepend b (if (0 <? truncate term)%Z
                 then Ret (x', Some ErrTruncateMap)
                 else Ret (expandMap rt t x' term m, None))).
  { intros m. destruct (0 <? truncate term)%Z; cbn [prepend];
      rewrite ?expandMap_prepend; reflexivity. }
  destruct v as [|s|a|m|fields|p|text]; cbn [prepend];
    rewrite ?expandString_prepend, ?expandArray_prepend; try reflexivity;
    try apply Hmap;
    match goal with
    | |- context [struct2map rt ?v] =>
        destruct (struct2map rt v) as [[m|]|]
    end; cbn [bind prepend]; rewrite ?expandString_prepend;
    try reflexivity; apply Hmap.
Qed.

Lemma expandTerms_prepend (values : gomap) (ts : list templateTerm) :
  forall firstLen x,
    expandTerms rt t (String.length b + firstLen) ts values (b ++ x)
    = prepend b (expandTerms rt t firstLen ts values x).
Proof.
  induction ts as [|term rest IH]; intros firstLen x; [reflexivity|].
  cbn [expandTerms]. destruct (map_get (name term) values) as [v|];
    [|apply IH].
  rewrite expandValue_prepend.
  destruct (expandValue rt t firstLen term v x) as [[x' [e|]]|];
    cbn [prepend bind]; [reflexivity | apply IH | reflexivity].
Qed.

Lemma expand_prepend (values : gomap) (x : string) :
  expand rt t (b ++ x) values = prepend b (expand rt t x values).
Proof.
  unfold expand. destruct (Nat.ltb 0 (String.length (raw t))).
  - cbn [prepend]. rewrite StringFacts.append_assoc. reflexivity.
  - cbv zeta. rewrite !StringFacts.append_assoc.
    rewrite (StringFacts.length_append b (x ++ first t)), expandTerms_prepend.
    destruct (expandTerms rt t (String.length (x ++ first t)) (terms t)
                values (x ++ first t)) as [[x' [e|]]|];
      cbn [prepend bind]; try reflexivity.
    rewrite eqb_length_app.
    destruct (Nat.eqb (String.length x') (String.length (x ++ first t)));
      cbn [prepend]; [|reflexivity].
    rewrite (StringFacts.length_append b x), take_app_length. reflexivity.
Qed.

End Buffer.

(** X12.  What an expression or a literal adds to the output does not depend on
    what the buffer holds: the expansion of a part onto a buffer is the
    buffer followed by the expansion of the part onto the empty buffer,
    with the same error or panic. *)
Theorem expand_buffer_independent (rt : Runtime) (t : templatePart)
    (buf : string) (values : gomap) :
  expand rt t buf values = prepend buf (expand rt t "" values).
Proof.
  rewrite <- (StringFacts.append_nil_r buf) at 1. apply expand_prepend.
Qed.

Lemma expandParts_prepend (rt : Runtime) (values : gomap)
    (ps : list templatePart) :
  forall b x s,
    expandParts rt ps x values = Ret (s, None) ->
    expandParts rt ps (b ++ x) values = Ret (b ++ s, None).
Proof.
  induction ps as [|p ps IH]; intros b x s H.
  - cbn in *. injection H as <-. reflexivity.
  - cbn [expandParts] in *. rewrite expand_prepend.
    destruct (expand rt p x values) as [[x' [e|]]|]; cbn [bind prepend] in *;
      try discriminate.
    apply IH. exact H.
Qed.

(** X13.  The expansion of a sequence of parts followed by another is the
    expansion of the first followed by the expansion of the second, when
    both succeed. *)
Theorem expandParts_concat (rt : Runtime) (values : gomap)
    (ps1 ps2 : list templatePart) (s1 s2 : string) :
  expandParts rt ps1 "" values = Ret (s1, None) ->
  expandParts rt ps2 "" values = Ret (s2, None) ->
  expandParts rt (ps1 ++ ps2)%list "" values = Ret (s1 ++ s2, None).
Proof.
  intros H1 H2. rewrite expandParts_app, H1. cbn [bind].
  rewrite <- (StringFacts.append_nil_r s1) at 1.
  apply expandParts_prepend. exact H2.
Qed.

Lemma expandParts_concat_witness :
  expandParts exampleRuntime
    ([mkPart "a/" [] "" "" false "" false]
       ++ [mkPart "" [mkTerm "x" false 0] "?" "&" true "=" false])%list
    "" [("x", VString "1")]
  = Ret ("a/" ++ "?x=1", None).
Proof.
  apply (expandParts_concat exampleRuntime [("x", VString "1")]
           [mkPart "a/" [] "" "" false "" false]
           [mkPart "" [mkTerm "x" false 0] "?" "&" true "=" false]);
    vm_compute; reflexivity.
Defined.

Lemma expandTerms_lookup (rt : Runtime) (t : templatePart)
    (values1 values2 : gomap) (ts : list templateTerm) :
  (forall k, map_get k values1 = map_get k values2) ->
  forall firstLen buf,
    expandTerms rt t firstLen ts values1 buf
    = expandTerms rt t firstLen ts values2 buf.
Proof.
  intros Hget. induction ts as [|term rest IH]; intros firstLen buf;
    [reflexivity|].
  cbn [expandTerms]. rewrite Hget.
  destruct (map_get (name term) values2) as [v|]; [|apply IH].
  destruct (expandValue rt t firstLen term v buf) as [[buf' [e|]]|];
    cbn [bind]; [reflexivity | apply IH | reflexivity].
Qed.

Lemma expandParts_same_lookup (rt : Runtime) (values1 values2 : gomap)
    (ps : list templatePart) (buf : string) :
  (forall k, map_get k values1 = map_get k values2) ->
  expandParts rt ps buf values1 = expandParts rt ps buf values2.
Proof.
  intros Hget. revert buf. induction ps as [|p ps IH]; intros buf;
    [reflexivity|].
  cbn [expandParts]. unfold expand.
  rewrite (expandTerms_lookup rt p values1 values2 (terms p) Hget).
  destruct (Nat.ltb 0 (String.length (raw p))); cbn [bind]; [apply IH|].
  destruct (expandTerms rt p _ (terms p) values2 _) as [[buf' [e|]]|];
    cbn [bind]; try reflexivity.
  destruct (Nat.eqb _ _); cbn [bind]; apply IH.
Qed.

(** X14.  The expansion reads the environment by looking names up and in no
    other way: two environments that hold the same value under every name
    give the same expansion, whatever the order of their entries. *)
Theorem expandParts_lookup (rt : Runtime) (values1 values2 : gomap)
    (ps : list templatePart) (buf : string) :
  (forall k, map_get k values1 = map_get k values2) ->
  expandParts rt ps buf values1 = expandParts rt ps buf values2.
Proof. apply expandParts_same_lookup. Qed.

Lemma expandParts_lookup_witness :
  expandParts exampleRuntime
    [mkPart "" [mkTerm "x" false 0; mkTerm "y" false 0] "" "," false "" false]
    "" [("x", VString "1"); ("y", VString "2")]
  = expandParts exampleRuntime
      [mkPart "" [mkTerm "x" false 0; mkTerm "y" false 0] "" "," false "" false]
      "" [("y", VString "2"); ("x", VString "1")].
Proof.
  apply (expandParts_lookup exampleRuntime
           [("x", VString "1"); ("y", VString "2")]
           [("y", VString "2"); ("x", VString "1")]).
  intros k. cbn [map_get].
  destruct (String.eqb k "x") eqn:Hx; destruct (String.eqb k "y") eqn:Hy;
    try reflexivity.
  apply String.eqb_eq in Hx, Hy. subst k. discriminate.
Defined.

Lemma expandTerms_present (rt : Runtime) (t : templatePart)
    (values : gomap) (ts : list templateTerm) :
  forall firstLen buf,
    expandTerms rt t firstLen ts values buf
    = expandTerms rt t firstLen (presentTerms values ts) values buf.
Proof.
  induction ts as [|term rest IH]; intros firstLen buf; [reflexivity|].
  cbn [expandTerms presentTerms filter].
  destruct (map_get (name term) values) as [v|] eqn:Hget; [|apply IH].
  cbn [expandTerms]. rewrite Hget.
  destruct (expandValue rt t firstLen term v buf) as [[buf' [e|]]|];
    cbn [bind]; [reflexivity | apply IH | reflexivity].
Qed.

Lemma expandValue_set_terms (rt : Runtime) (t : templatePart)
    (ts : list templateTerm) (firstLen : nat) (term : templateTerm)
    (v : value) (buf : string) :
  expandValue rt (set_terms ts t) firstLen term v buf
  = expandValue rt t firstLen term v buf.
Proof.
  assert (Hname : forall b n e,
    expandName (set_terms ts t) b n e = expandName t b n e) by reflexivity.
  assert (Hstring : forall b s,
    expandString (set_terms ts t) b term s = expandString t b term s)
    by reflexivity.
  assert (Harray : forall a i b,
    expandArrayLoop rt (set_terms ts t) term i a b
    = expandArrayLoop rt t term i a b).
  { induction a as [|x a IH]; intros i b; [reflexivity|].
    cbn [expandArrayLoop]. cbv zeta. rewrite IH, !Hname. reflexivity. }
  assert (Hmaploop : forall m fl b,
    expandMapLoop rt (set_terms ts t) term fl m b
    = expandMapLoop rt t term fl m b).
  { induction m as [|[k x] m IH]; intros fl b; [reflexivity|].
    cbn [expandMapLoop]. cbv zeta. rewrite IH. reflexivity. }
  assert (Hmap : forall b m,
    expandMap rt (set_terms ts t) b term m = expandMap rt t b term m).
  { intros b m. unfold expandMap. rewrite Hname, !Hmaploop. reflexivity. }
  unfold expandValue. cbn [set_terms sep].
  destruct v as [|s|a|m|fields|p|text]; rewrite ?Hstring, ?Hmap;
    try reflexivity.
  - unfold expandArray. rewrite Hname, !Harray. reflexivity.
  - destruct (struct2map rt (VStruct fields)) as [[m|]|]; cbn [bind];
      rewrite ?Hstring, ?Hmap; reflexivity.
  - destruct (struct2map rt (VPtr p)) as [[m|]|]; cbn [bind];
      rewrite ?Hstring, ?Hmap; reflexivity.
Qed.

(** X15.  Terms whose name the environment does not hold are skipped entirely:
    an expression expands as the expression without them does. *)
Theorem expand_skips_absent_terms (rt : Runtime) (t : templatePart)
    (buf : string) (values : gomap) :
  expand rt t buf values
  = expand rt (set_terms (presentTerms values (terms t)) t) buf values.
Proof.
  unfold expand. cbn [set_terms raw first terms].
  destruct (Nat.ltb 0 (String.length (raw t))); [reflexivity|]. cbv zeta.
  rewrite (expandTerms_present rt t values (terms t)).
  assert (Hsame : forall ts fl b,
    expandTerms rt t fl ts values b
    = expandTerms rt (set_terms (presentTerms values (terms t)) t) fl ts
        values b).
  { induction ts as [|term rest IH]; intros fl b; [reflexivity|].
    cbn [expandTerms]. destruct (map_get (name term) values) as [v|];
      [|apply IH].
    rewrite expandValue_set_terms.
    destruct (expandValue rt t fl term v b) as [[b' [e|]]|]; cbn [bind];
      [reflexivity | apply IH | reflexivity]. }
  rewrite Hsame. reflexivity.
Qed.

(** ** Literal templates, errors and panics of the expander *)

(** X16.  A template without braces is parsed to its one literal part, and it
    expands to itself under every environment. *)
Theorem Expand_literal (rt : Runtime) (path : string) (expansions : gomap) :
  Strings.contains_byte "{" path = false ->
  Strings.contains_byte "}" path = false ->
  Parse path = Ret (Some (mkTemplate path [set_raw path zeroPart]), None) /\
  Expand rt path expansions = Ret (path, None).
Proof.
  intros Hopen Hclose.
  assert (HP : Parse path
               = Ret (Some (mkTemplate path [set_raw path zeroPart]), None)).
  { unfold Parse. rewrite (Split_no_sep _ _ Hopen).
    cbn [List.length Nat.mul Nat.add Nat.sub repeat parseLoop Nat.eqb].
    rewrite Hclose. reflexivity. }
  split; [exact HP|]. unfold Expand. rewrite HP.
  cbn [bind Template_Expand parts expandParts]. unfold expand.
  cbn [set_raw raw terms first zeroPart].
  destruct path as [|c path]; reflexivity.
Qed.

Lemma Expand_literal_witness :
  Parse "http://example.org/a?b=c"
  = Ret (Some (mkTemplate "http://example.org/a?b=c"
                 [set_raw "http://example.org/a?b=c" zeroPart]), None) /\
  Expand exampleRuntime "http://example.org/a?b=c" [("b", VString "x")]
  = Ret ("http://example.org/a?b=c", None).
Proof.
  apply (Expand_literal exampleRuntime "http://example.org/a?b=c"
           [("b", VString "x")]); reflexivity.
Defined.

Lemma expandValue_error (rt : Runtime) (t : templatePart) (firstLen : nat)
    (term : templateTerm) (v : value) (buf b : string) (e : error) :
  expandValue rt t firstLen term v buf = Ret (b, Some e) ->
  e = ErrTruncateMap /\
  (0 <? truncate term)%Z &&
  match v with
  | VString _ => false
  | VArray _ => false
  | VMap _ => true
  | _ => match struct2map rt v with
         | Ret (Some _) => true
         | _ => false
         end
  end = true.
Proof.
  unfold expandValue.
  destruct v as [|s|a|m|fields|p|text]; try discriminate;
    try match goal with
    | |- context [struct2map rt ?v] =>
        destruct (struct2map rt v) as [[m|]|]
    end; cbn [bind]; try discriminate;
    destruct (0 <? truncate term)%Z; try discriminate;
    intros [= _ <-]; split; reflexivity.
Qed.

(** X17.  The one error an expression can give is the error of truncating a
    map, and it gives it only when one of its terms has a truncation
    length and a map (or a struct behind pointers) for a value. *)
Theorem expand_error_is_truncated_map (rt : Runtime) (t : templatePart)
    (buf : string) (values : gomap) (b : string) (e : error) :
  expand rt t buf values = Ret (b, Some e) ->
  e = ErrTruncateMap /\ existsb (truncatesMap rt values) (terms t) = true.
Proof.
  unfold expand. destruct (Nat.ltb 0 (String.length (raw t)));
    [discriminate|]. cbv zeta.
  generalize (buf ++ first t). intros buf0.
  generalize (String.length buf0). intros firstLen H.
  assert (Hterms : forall ts x,
    expandTerms rt t firstLen ts values x = Ret (b, Some e) ->
    e = ErrTruncateMap /\ existsb (truncatesMap rt values) ts = true).
  { induction ts as [|term rest IH]; intros x Hx; [discriminate|].
    cbn [expandTerms existsb] in *. unfold truncatesMap at 1.
    destruct (map_get (name term) values) as [v|] eqn:Hget.
    - destruct (expandValue rt t firstLen term v x) as [[x' [e'|]]|] eqn:Hv;
        cbn [bind] in Hx; try discriminate.
      + injection Hx as -> ->.
        destruct (expandValue_error _ _ _ _ _ _ _ _ Hv) as [-> Hm].
        split; [reflexivity|].
        destruct v; rewrite Hm; reflexivity.
      + destruct (IH _ Hx) as [-> ->]. rewrite orb_true_r. auto.
    - rewrite andb_false_r. apply (IH _ Hx). }
  destruct (expandTerms rt t firstLen (terms t) values buf0)
    as [[x' [e'|]]|] eqn:Ht; cbn [bind] in H; try discriminate.
  - injection H as -> ->. apply (Hterms _ _ Ht).
  - destruct (Nat.eqb _ _); discriminate.
Qed.

Lemma expand_error_is_truncated_map_witness :
  ErrTruncateMap = ErrTruncateMap /\
  existsb (truncatesMap exampleRuntime [("x", VMap [])])
    [mkTerm "x" false 3] = true.
Proof.
  apply (expand_error_is_truncated_map exampleRuntime
           (mkPart "" [mkTerm "x" false 3] "" "," false "" false)
           "" [("x", VMap [])] "").
  reflexivity.
Defined.

(** X18.  An expression one of whose terms has a truncation length and a map
    for a value never expands: it gives the error (or panics before it
    reaches the term). *)
Theorem expand_truncated_map_fails (rt : Runtime) (t : templatePart)
    (buf : string) (values : gomap) (b : string) :
  raw t = "" ->
  existsb (truncatesMap rt values) (terms t) = true ->
  expand rt t buf values <> Ret (b, None).
Proof.
  intros Hraw Hex. unfold expand. rewrite Hraw.
  cbn [String.length Nat.ltb Nat.leb]. cbv zeta.
  generalize (buf ++ first t). intros buf0.
  generalize (String.length buf0). intros firstLen.
  assert (Hterms : forall ts x x',
    existsb (truncatesMap rt values) ts = true ->
    expandTerms rt t firstLen ts values x <> Ret (x', None)).
  { induction ts as [|term rest IH]; intros x x' Hts; [discriminate|].
    cbn [expandTerms existsb] in *. unfold truncatesMap at 1 in Hts.
    destruct (map_get (name term) values) as [v|] eqn:Hget.
    - destruct (expandValue rt t firstLen term v x) as [[y [e'|]]|] eqn:Hv;
        cbn [bind]; try discriminate.
      apply IH. apply orb_prop in Hts. destruct Hts as [Hts|Hts];
        [|exact Hts]. exfalso.
      apply andb_prop in Hts. destruct Hts as [Htr Hm].
      unfold expandValue in Hv. rewrite Htr in Hv.
      destruct v as [|s|a|m|fields|p|text]; try discriminate;
        destruct (struct2map rt _) as [[m|]|]; cbn [bind] in Hv;
        discriminate.
    - rewrite andb_false_r in Hts. apply IH. exact Hts. }
  destruct (expandTerms rt t firstLen (terms t) values buf0)
    as [[x' [e'|]]|] eqn:Ht; cbn [bind]; try discriminate.
  exfalso. apply (Hterms _ _ _ Hex Ht).
Qed.

Lemma expand_truncated_map_fails_witness :
  expand exampleRuntime
    (mkPart "" [mkTerm "x" false 3] "" "," false "" false) ""
    [("x", VMap [("k", VString "v")])] <> Ret ("k,v", None).
Proof.
  apply (expand_truncated_map_fails exampleRuntime
           (mkPart "" [mkTerm "x" false 3] "" "," false "" false) ""
           [("x", VMap [("k", VString "v")])]); reflexivity.
Defined.

Lemma map_get_in (k : string) (m : gomap) (v : value) :
  map_get k m = Some v -> In (k, v) m.
Proof.
  induction m as [|[k' v'] m IH]; [discriminate|]. cbn [map_get].
  destruct (String.eqb_spec k k') as [->|_].
  - intros [= ->]. left. reflexivity.
  - intros H. right. apply IH. exact H.
Qed.

(** X19.  On an environment whose values are strings, lists, maps and values of
    other types that are no pointer and no struct, [Template.Expand]
    never panics: it returns a string or an error. *)
Theorem Template_Expand_plain_returns (rt : Runtime) (t : Template)
    (values : gomap) :
  forallb (fun kv => plainValue (snd kv)) values = true ->
  exists r, Template_Expand rt t (VMap values) = Ret r.
Proof.
  intros Hplain. cbn [Template_Expand].
  assert (Hvalue : forall p fl term v x,
    plainValue v = true -> exists r, expandValue rt p fl term v x = Ret r).
  { intros p fl term v x Hv. unfold expandValue.
    destruct v; try discriminate; cbn [struct2map bind];
      try destruct (0 <? truncate term)%Z; eauto. }
  assert (Hterms : forall p fl ts x,
    exists r, expandTerms rt p fl ts values x = Ret r).
  { intros p fl ts. induction ts as [|term rest IH]; intros x;
      cbn [expandTerms]; [eauto|].
    destruct (map_get (name term) values) as [v|] eqn:Hget; [|apply IH].
    destruct (Hvalue p fl term v x) as ([x' [e|]] & ->).
    { rewrite forallb_forall in Hplain.
      apply (Hplain _ (map_get_in _ _ _ Hget)). }
    - cbn [bind]. eauto.
    - cbn [bind]. apply IH. }
  assert (Hexpand : forall p x, exists r, expand rt p x values = Ret r).
  { intros p x. unfold expand. destruct (Nat.ltb _ _); [eauto|]. cbv zeta.
    destruct (Hterms p (String.length (x ++ first p)) (terms p)
                (x ++ first p)) as ([x' [e|]] & ->); cbn [bind]; [eauto|].
    destruct (Nat.eqb _ _); eauto. }
  generalize EmptyString.
  induction (parts t) as [|p ps IH]; intros x; cbn [expandParts]; [eauto|].
  destruct (Hexpand p x) as ([x' [e|]] & ->); cbn [bind]; [eauto | apply IH].
Qed.

Lemma Template_Expand_plain_returns_witness :
  exists r,
    Template_Expand exampleRuntime
      (mkTemplate "{x}" [zeroPart;
         mkPart "" [mkTerm "x" false 0] "" "," false "" false; zeroPart])
      (VMap [("x", VOther "33")]) = Ret r.
Proof.
  apply (Template_Expand_plain_returns exampleRuntime
           (mkTemplate "{x}" [zeroPart;
              mkPart "" [mkTerm "x" false 0] "" "," false "" false; zeroPart])
           [("x", VOther "33")]).
  reflexivity.
Defined.

(** ** Lists, maps and expressions as joined texts *)

Lemma concat_leading (d x : string) (l : list string) :
  String.concat d (x :: l) = x ++ leading d l.
Proof.
  revert x. induction l as [|y l IH]; intros x.
  - cbn. rewrite StringFacts.append_nil_r. reflexivity.
  - cbn [String.concat leading] in *. rewrite IH. reflexivity.
Qed.

Lemma expandName_text (t : templatePart) (buf n : string) (e : bool) :
  expandName t buf n e = buf ++ expandName t "" n e.
Proof.
  rewrite <- (StringFacts.append_nil_r buf) at 1. apply expandName_prepend.
Qed.

Section Joins.

Context (rt : Runtime) (t : templatePart) (term : templateTerm).

Lemma expandArrayLoop_step (i : nat) (v : value) (rest : list value)
    (buf : string) :
  expandArrayLoop rt t term i (v :: rest) buf
  = expandArrayLoop rt t term (S i) rest
      (buf ++ (if Nat.ltb 0 i then listSeparator t term else "")
           ++ arrayPiece rt t term v).
Proof.
  cbn [expandArrayLoop]. cbv zeta. f_equal.
  unfold arrayPiece, listSeparator.
  set (s := truncated term (elemString rt v)).
  set (nm := expandName t "" (name term) (Nat.eqb (String.length s) 0)).
  assert (Hnm : forall B,
    expandName t B (name term) (Nat.eqb (String.length s) 0) = B ++ nm)
    by (intros B; apply expandName_text).
  destruct (explode term), (Nat.ltb 0 i), (named t);
    cbn [andb append]; rewrite ?Hnm, ?StringFacts.append_assoc;
    reflexivity.
Qed.

Lemma expandArrayLoop_leading (a : list value) :
  forall i buf,
    0 < i ->
    expandArrayLoop rt t term i a buf
    = buf ++ leading (listSeparator t term) (map (arrayPiece rt t term) a).
Proof.
  induction a as [|v a IH]; intros i buf Hi.
  - cbn. rewrite StringFacts.append_nil_r. reflexivity.
  - rewrite expandArrayLoop_step, IH by lia.
    destruct (Nat.ltb_spec 0 i); [|lia]. cbn [map leading].
    rewrite !StringFacts.append_assoc. reflexivity.
Qed.

(** X20.  A non-empty list is rendered as the texts of its elements with the
    separator of the list between them: a comma, and once before them the
    name of the term in an expression with named pairs, when the term does
    not explode; the separator of the expression, and the name with every
    element in an expression with named pairs, when it explodes. *)
Theorem expandArray_join (buf : string) (a : list value) :
  a <> [] ->
  expandArray rt t buf term a
  = buf ++ listName t term
    ++ String.concat (listSeparator t term) (map (arrayPiece rt t term) a).
Proof.
  intros Ha. destruct a as [|v a]; [contradiction|].
  unfold expandArray. cbn [List.length Nat.eqb].
  rewrite expandArrayLoop_step, expandArrayLoop_leading by lia.
  cbn [Nat.ltb Nat.leb map]. rewrite concat_leading. unfold listName.
  destruct (negb (explode term)).
  - rewrite (expandName_text t buf), !StringFacts.append_assoc.
    reflexivity.
  - rewrite !StringFacts.append_assoc. reflexivity.
Qed.

Lemma expandMapLoop_grown (m : gomap) :
  forall firstLen buf,
    firstLen < String.length buf ->
    expandMapLoop rt t term firstLen m buf
    = buf ++ leading (listSeparator t term) (map (mapPiece rt t term) m).
Proof.
  induction m as [|[k v] m IH]; intros firstLen buf Hlen.
  - cbn. rewrite StringFacts.append_nil_r. reflexivity.
  - cbn [expandMapLoop]. cbv zeta.
    destruct (Nat.eqb_spec firstLen (String.length buf)); [lia|].
    cbn [negb map leading]. unfold mapPiece at 1, listSeparator at 1.
    cbn [fst snd].
    destruct (explode term); rewrite IH;
      rewrite ?StringFacts.length_append; try lia;
      rewrite ?StringFacts.append_assoc; reflexivity.
Qed.

Lemma expandMapLoop_first (k : string) (v : value) (m : gomap)
    (buf : string) :
  expandMapLoop rt t term (String.length buf) ((k, v) :: m) buf
  = buf ++ mapPiece rt t term (k, v)
    ++ leading (listSeparator t term) (map (mapPiece rt t term) m).
Proof.
  cbn [expandMapLoop]. cbv zeta. rewrite Nat.eqb_refl. cbn [negb].
  unfold mapPiece at 1. cbn [fst snd].
  destruct (explode term) eqn:He; rewrite expandMapLoop_grown;
    rewrite ?StringFacts.length_append; cbn [String.length]; try lia;
    unfold listSeparator; rewrite He, ?StringFacts.append_assoc;
    reflexivity.
Qed.

(** X21.  A non-empty map is rendered as the texts of its entries, in the order
    in which they are visited, with the separator of the list between
    them: key, comma, value for every entry, commas between the entries
    and once before them the name of the term in an expression with named
    pairs, when the term does not explode; key, [=], value and the
    separator of the expression between the entries when it explodes.
    The values are not truncated. *)
Theorem expandMap_join (buf : string) (m : gomap) :
  m <> [] ->
  expandMap rt t buf term m
  = buf ++ listName t term
    ++ String.concat (listSeparator t term) (map (mapPiece rt t term) m).
Proof.
  intros Hm. destruct m as [|[k v] m]; [contradiction|].
  unfold expandMap. cbn [List.length Nat.eqb map].
  rewrite concat_leading. unfold listName.
  destruct (negb (explode term)).
  - rewrite expandMapLoop_first, (expandName_text t buf),
      ?StringFacts.append_assoc. reflexivity.
  - rewrite expandMapLoop_first. reflexivity.
Qed.

End Joins.

Lemma expandArray_join_witness :
  expandArray exampleRuntime
    (mkPart "" [] "?" "&" true "=" false) "?" (mkTerm "l" true 0)
    [VString "a"; VString ""; VOther "3"]
  = "?" ++ "" ++ String.concat "&" ["l=a"; "l="; "l=3"].
Proof.
  apply (expandArray_join exampleRuntime
           (mkPart "" [] "?" "&" true "=" false) (mkTerm "l" true 0) "?"
           [VString "a"; VString ""; VOther "3"]).
  discriminate.
Defined.

Lemma expandMap_join_witness :
  expandMap exampleRuntime
    (mkPart "" [] "?" "&" true "=" false) "?" (mkTerm "m" false 0)
    [("k", VString "a b"); ("j", VOther "3")]
  = "?" ++ "m=" ++ String.concat "," ["k,a%20b"; "j,3"].
Proof.
  apply (expandMap_join exampleRuntime
           (mkPart "" [] "?" "&" true "=" false) (mkTerm "m" false 0) "?"
           [("k", VString "a b"); ("j", VOther "3")]).
  discriminate.
Defined.

Lemma expandValue_fresh (rt : Runtime) (t : templatePart) (firstLen : nat)
    (term : templateTerm) (v : value) (buf : string) :
  expandValue rt t firstLen term v buf
  = prepend (if negb (Nat.eqb (String.length buf) firstLen)
             then buf ++ sep t else buf)
      (expandValue rt t 0 term v "").
Proof.
  set (buf' := if negb (Nat.eqb (String.length buf) firstLen)
               then buf ++ sep t else buf).
  transitivity (expandValue rt t (String.length buf' + 0) term v (buf' ++ "")).
  - unfold expandValue. rewrite eqb_length_app. cbn [String.length Nat.eqb negb].
    fold buf'. rewrite StringFacts.append_nil_r. reflexivity.
  - apply expandValue_prepend.
Qed.

Lemma termPiece_value (rt : Runtime) (t : templatePart) (values : gomap)
    (term : templateTerm) (p : string) :
  termPiece rt t values term = Some p ->
  exists v, map_get (name term) values = Some v /\
            expandValue rt t 0 term v "" = Ret (p, None) /\
            0 < String.length p.
Proof.
  unfold termPiece. destruct (map_get (name term) values) as [v|];
    [|discriminate].
  destruct (expandValue rt t 0 term v "") as [[q [e|]]|] eqn:Hv;
    try discriminate.
  destruct (Nat.eqb_spec (String.length q) 0); [discriminate|].
  intros [= <-]. exists v. split; [reflexivity|]. split; [exact Hv|].
  lia.
Qed.

Lemma expandTerms_grown (rt : Runtime) (t : templatePart) (values : gomap)
    (firstLen : nat) (ts : list templateTerm) :
  forall pieces buf,
    firstLen < String.length buf ->
    map (termPiece rt t values) ts = map Some pieces ->
    expandTerms rt t firstLen ts values buf
    = Ret (buf ++ leading (sep t) pieces, None).
Proof.
  induction ts as [|term rest IH]; intros pieces buf Hlen Hp;
    destruct pieces as [|p pieces]; try discriminate.
  - cbn. rewrite StringFacts.append_nil_r. reflexivity.
  - cbn [map] in Hp. injection Hp as Hp Hrest.
    destruct (termPiece_value _ _ _ _ _ Hp) as (v & Hget & Hv & Hpos).
    cbn [expandTerms]. rewrite Hget, expandValue_fresh, Hv.
    destruct (Nat.eqb_spec (String.length buf) firstLen); [lia|].
    cbn [negb prepend bind]. rewrite (IH pieces) by
      (rewrite ?StringFacts.length_append; (lia || assumption)).
    cbn [leading]. rewrite !StringFacts.append_assoc. reflexivity.
Qed.

Lemma expandTerms_fresh (rt : Runtime) (t : templatePart) (values : gomap)
    (ts : list templateTerm) (pieces : list string) (buf : string) :
  map (termPiece rt t values) ts = map Some pieces ->
  expandTerms rt t (String.length buf) ts values buf
  = Ret (buf ++ match pieces with
                | [] => ""
                | p :: ps => p ++ leading (sep t) ps
                end, None).
Proof.
  intros Hp. destruct ts as [|term rest]; destruct pieces as [|p pieces];
    try discriminate.
  - cbn. rewrite StringFacts.append_nil_r. reflexivity.
  - cbn [map] in Hp. injection Hp as Hp Hrest.
    destruct (termPiece_value _ _ _ _ _ Hp) as (v & Hget & Hv & Hpos).
    cbn [expandTerms]. rewrite Hget, expandValue_fresh, Hv, Nat.eqb_refl.
    cbn [negb prepend bind].
    rewrite (expandTerms_grown rt t values _ rest pieces) by
      (rewrite ?StringFacts.length_append; (lia || assumption)).
    rewrite !StringFacts.append_assoc. reflexivity.
Qed.

(** X22.  An expression every present term of which renders a non-empty text
    without error expands to its prefix followed by the texts of the
    present terms, in the order of the terms, with the separator of the
    expression between them; an expression without a present term expands
    to nothing, not even its prefix. *)
Theorem expand_join (rt : Runtime) (t : templatePart) (buf : string)
    (values : gomap) (pieces : list string) :
  raw t = "" ->
  map (termPiece rt t values) (presentTerms values (terms t))
  = map Some pieces ->
  expand rt t buf values
  = Ret (buf ++ match pieces with
                | [] => ""
                | _ => first t ++ String.concat (sep t) pieces
                end, None).
Proof.
  intros Hraw Hp. unfold expand. rewrite Hraw.
  cbn [String.length Nat.ltb Nat.leb]. cbv zeta.
  rewrite expandTerms_present, (expandTerms_fresh _ _ _ _ pieces) by exact Hp.
  cbn [bind]. destruct pieces as [|p ps].
  - rewrite !StringFacts.append_nil_r, Nat.eqb_refl,
      StringFacts.take_append. reflexivity.
  - assert (Hpos : 0 < String.length p).
    { destruct (presentTerms values (terms t)) as [|term rest];
        [discriminate|]. cbn [map] in Hp. injection Hp as Hp _.
      destruct (termPiece_value _ _ _ _ _ Hp) as (_ & _ & _ & H). exact H. }
    rewrite concat_leading.
    destruct (Nat.eqb_spec
                (String.length ((buf ++ first t) ++ p ++ leading (sep t) ps))
                (String.length (buf ++ first t))) as [Heq|_].
    + rewrite !StringFacts.length_append in Heq. lia.
    + rewrite !StringFacts.append_assoc. reflexivity.
Qed.

Lemma expand_join_witness :
  expand exampleRuntime
    (mkPart "" [mkTerm "x" false 0; mkTerm "u" false 0; mkTerm "l" true 0]
            "?" "&" true "=" false)
    "http://h/" [("x", VString "1"); ("l", VArray [VString "a"; VString "b"])]
  = Ret ("http://h/" ++ "?" ++ String.concat "&" ["x=1"; "l=a&l=b"], None).
Proof.
  apply (expand_join exampleRuntime
           (mkPart "" [mkTerm "x" false 0; mkTerm "u" false 0;
                       mkTerm "l" true 0] "?" "&" true "=" false)
           "http://h/"
           [("x", VString "1"); ("l", VArray [VString "a"; VString "b"])]
           ["x=1"; "l=a&l=b"]); vm_compute; reflexivity.
Defined.

(** ** [struct2map] and the package-level [Expand] *)

Lemma map_get_set_same (k : string) (v : value) (m : gomap) :
  map_get k (map_set k v m) = Some v.
Proof.
  induction m as [|[k' v'] m IH]; cbn [map_set map_get].
  - rewrite String.eqb_refl. reflexivity.
  - destruct (String.eqb k k') eqn:E; cbn [map_get].
    + rewrite String.eqb_refl. reflexivity.
    + rewrite E. exact IH.
Qed.

Lemma map_get_set_other (k k0 : string) (v : value) (m : gomap) :
  String.eqb k k0 = false ->
  map_get k (map_set k0 v m) = map_get k m.
Proof.
  intros Hk. induction m as [|[k' v'] m IH]; cbn [map_set map_get].
  - rewrite Hk. reflexivity.
  - destruct (String.eqb_spec k0 k') as [->|Hne]; cbn [map_get].
    + rewrite Hk. reflexivity.
    + rewrite IH. reflexivity.
Qed.

Lemma struct2map_pointerTo (rt : Runtime) (n : nat) (v : value) :
  struct2map rt (pointerTo (S n) v) = struct2map rt (pointerTo 1 v) /\
  struct2map rt (pointerTo 1 v) = struct2map rt v.
Proof.
  split; [|reflexivity]. induction n as [|n IH]; [reflexivity|].
  cbn [pointerTo struct2map] in *. exact IH.
Qed.

Lemma find_snoc {A : Type} (p : A -> bool) (l : list A) (x : A) :
  find p (l ++ [x])%list
  = match find p l with
    | Some y => Some y
    | None => if p x then Some x else None
    end.
Proof.
  induction l as [|y l IH]; [reflexivity|]. cbn [app find].
  destruct (p y); [reflexivity | exact IH].
Qed.

Lemma fields2map_lookup (rt : Runtime) (fields : list (structField value)) :
  forall m0,
    forallb fieldExported fields = true ->
    exists m, fields2map rt fields m0 = Ret m /\
      forall k, map_get k m
                = match lastField rt k fields with
                  | Some f => Some (fieldValue f)
                  | None => map_get k m0
                  end.
Proof.
  unfold lastField.
  induction fields as [|f rest IH]; intros m0 Hexp.
  - exists m0. split; reflexivity.
  - cbn [forallb] in Hexp. apply andb_prop in Hexp. destruct Hexp as [Hf Hr].
    cbn [fields2map]. rewrite Hf.
    destruct (IH (map_set (fieldKey rt f) (fieldValue f) m0) Hr)
      as (m & Hm & Hget).
    exists m. split; [exact Hm|]. intros k. rewrite Hget. cbn [rev].
    rewrite find_snoc.
    destruct (find _ (rev rest)); [reflexivity|]. cbn [find].
    destruct (String.eqb k (fieldKey rt f)) eqn:Hk.
    + apply String.eqb_eq in Hk. subst k. apply map_get_set_same.
    + apply map_get_set_other. exact Hk.
Qed.

(** X23.  A struct whose fields are all exported, behind any number of
    pointers, is turned into the map that holds, under every key, the
    value of the last field with that key, and nothing under a key that no
    field has. *)
Theorem struct2map_lookup (rt : Runtime) (n : nat)
    (fields : list (structField value)) :
  forallb fieldExported fields = true ->
  exists m,
    struct2map rt (pointerTo n (VStruct fields)) = Ret (Some m) /\
    forall k, map_get k m = option_map fieldValue (lastField rt k fields).
Proof.
  intros Hexp.
  destruct (fields2map_lookup rt fields [] Hexp) as (m & Hm & Hget).
  exists m. split.
  - induction n as [|n IH]; [|exact IH]. cbn [pointerTo struct2map].
    rewrite Hm. reflexivity.
  - intros k. rewrite Hget. unfold option_map.
    destruct (lastField rt k fields); reflexivity.
Qed.

Lemma struct2map_lookup_witness :
  exists m,
    struct2map exampleRuntime
      (pointerTo 1 (VStruct [mkField "A" "id" true (VString "1");
                             mkField "B" "" true (VString "2");
                             mkField "C" "id" true (VString "3")]))
    = Ret (Some m) /\
    forall k, map_get k m
              = option_map fieldValue
                  (lastField exampleRuntime k
                     [mkField "A" "id" true (VString "1");
                      mkField "B" "" true (VString "2");
                      mkField "C" "id" true (VString "3")]).
Proof.
  apply (struct2map_lookup exampleRuntime 1
           [mkField "A" "id" true (VString "1");
            mkField "B" "" true (VString "2");
            mkField "C" "id" true (VString "3")]).
  reflexivity.
Defined.

(** X24.  A struct with a field that is not exported, behind any number of
    pointers, makes [struct2map] panic, and with it every expansion that
    meets the struct. *)
Theorem struct2map_unexported (rt : Runtime) (n : nat)
    (fields : list (structField value)) :
  forallb fieldExported fields = false ->
  struct2map rt (pointerTo n (VStruct fields)) = Panic ReflectUnexported.
Proof.
  intros Hexp. induction n as [|n IH]; [|exact IH].
  cbn [pointerTo struct2map].
  assert (H : forall m0, fields2map rt fields m0 = Panic ReflectUnexported).
  { induction fields as [|f rest IHf]; intros m0; [discriminate|].
    cbn [forallb fields2map] in *. destruct (fieldExported f);
      [apply IHf; exact Hexp | reflexivity]. }
  rewrite H. reflexivity.
Qed.

Lemma struct2map_unexported_witness :
  struct2map exampleRuntime
    (pointerTo 2 (VStruct [mkField "A" "" true (VString "1");
                           mkField "b" "" false (VString "2")]))
  = Panic ReflectUnexported.
Proof.
  apply (struct2map_unexported exampleRuntime 2
           [mkField "A" "" true (VString "1");
            mkField "b" "" false (VString "2")]).
  reflexivity.
Defined.

Lemma copy_lookup (expansions : gomap) :
  forall m0 k,
    distinctKeys expansions = true ->
    map_get k (fold_left (fun m kv => map_set (fst kv) (snd kv) m)
                 expansions m0)
    = match map_get k expansions with
      | Some v => Some v
      | None => map_get k m0
      end.
Proof.
  induction expansions as [|[k0 v0] rest IH]; intros m0 k Hd; [reflexivity|].
  cbn [distinctKeys] in Hd. destruct (map_get k0 rest) eqn:Hk0;
    [discriminate|].
  cbn [fold_left fst snd map_get]. rewrite (IH _ _ Hd).
  destruct (String.eqb_spec k k0) as [->|Hne].
  - rewrite Hk0. apply map_get_set_same.
  - destruct (map_get k rest); [reflexivity|].
    apply map_get_set_other. apply String.eqb_neq. exact Hne.
Qed.

(** X25.  The package-level [Expand] on a map without repeated keys is [Parse]
    followed by [Template.Expand] on that map: the copy of the map that it
    makes changes nothing; an error of [Parse] comes back with the empty
    string, and a panic of [Parse] is a panic of [Expand]. *)
Theorem Expand_is_Parse_then_Expand (rt : Runtime) (path : string)
    (expansions : gomap) :
  distinctKeys expansions = true ->
  (forall t, Parse path = Ret (Some t, None) ->
     Expand rt path expansions = Template_Expand rt t (VMap expansions)) /\
  (forall t e, Parse path = Ret (t, Some e) ->
     Expand rt path expansions = Ret ("", Some e)) /\
  (forall p, Parse path = Panic p -> Expand rt path expansions = Panic p).
Proof.
  intros Hd. unfold Expand. repeat split.
  - intros t ->. cbn [bind Template_Expand]. apply expandParts_same_lookup.
    intros k. rewrite (copy_lookup expansions [] k Hd).
    destruct (map_get k expansions); reflexivity.
  - intros t e ->. reflexivity.
  - intros p ->. reflexivity.
Qed.

Lemma Expand_is_Parse_then_Expand_witness :
  Expand exampleRuntime "{x}{y}" [("x", VString "1"); ("y", VString "2")]
  = Template_Expand exampleRuntime
      (mkTemplate "{x}{y}"
         [ zeroPart; mkPart "" [mkTerm "x" false 0] "" "," false "" false;
           zeroPart; mkPart "" [mkTerm "y" false 0] "" "," false "" false;
           zeroPart ])
      (VMap [("x", VString "1"); ("y", VString "2")]).
Proof.
  apply (Expand_is_Parse_then_Expand exampleRuntime "{x}{y}"
           [("x", VString "1"); ("y", VString "2")]);
    vm_compute; reflexivity.
Defined.

(** ** Names, structs as environments, and the bytes of an expansion *)

(** X26.  A name that [validname] accepts is not empty and holds only letters,
    digits, [_], [.] and [%]: none of the bytes that structure a
    template or a term specification. *)
Theorem validname_structure (n : string) :
  Regexp.validname_MatchString n = true ->
  n <> "" /\ allBytes nameByte n = true /\
  Strings.contains_byte "," n = false /\
  Strings.contains_byte ":" n = false /\
  Strings.contains_byte "*" n = false /\
  Strings.contains_byte "{" n = false /\
  Strings.contains_byte "}" n = false.
Proof.
  intros H. pose proof (validname_bytes n H) as Hb.
  split; [destruct n; [discriminate H | discriminate]|].
  split; [exact Hb|].
  repeat split; apply (allBytes_contains _ _ _ Hb); reflexivity.
Qed.

Lemma validname_structure_witness :
  "a.b_%2F" <> "" /\ allBytes nameByte "a.b_%2F" = true /\
  Strings.contains_byte "," "a.b_%2F" = false /\
  Strings.contains_byte ":" "a.b_%2F" = false /\
  Strings.contains_byte "*" "a.b_%2F" = false /\
  Strings.contains_byte "{" "a.b_%2F" = false /\
  Strings.contains_byte "}" "a.b_%2F" = false.
Proof.
  apply (validname_structure "a.b_%2F"). reflexivity.
Defined.

(** X27.  [Template.Expand] on a struct whose fields are all exported, behind
    any number of pointers, is [Template.Expand] on any map that holds,
    under every key, the value of the last field of the struct with that
    key. *)
Theorem Template_Expand_struct (rt : Runtime) (t : Template) (n : nat)
    (fields : list (structField value)) (values : gomap) :
  forallb fieldExported fields = true ->
  (forall k, map_get k values
             = option_map fieldValue (lastField rt k fields)) ->
  Template_Expand rt t (pointerTo n (VStruct fields))
  = Template_Expand rt t (VMap values).
Proof.
  intros Hexp Hvalues.
  destruct (fields2map_lookup rt fields [] Hexp) as (m & Hm & Hget).
  assert (Hs : struct2map rt (pointerTo n (VStruct fields)) = Ret (Some m)).
  { induction n as [|n IH]; [|exact IH]. cbn [pointerTo struct2map].
    rewrite Hm. reflexivity. }
  assert (HT : Template_Expand rt t (pointerTo n (VStruct fields))
               = expandParts rt (parts t) "" m).
  { destruct n; cbn [pointerTo Template_Expand] in *; rewrite Hs;
      reflexivity. }
  rewrite HT. cbn [Template_Expand]. apply expandParts_same_lookup.
  intros k. rewrite Hget, Hvalues. unfold option_map.
  destruct (lastField rt k fields); reflexivity.
Qed.

Lemma Template_Expand_struct_witness :
  Template_Expand exampleRuntime
    (mkTemplate "{A}" [zeroPart;
       mkPart "" [mkTerm "A" false 0] "" "," false "" false; zeroPart])
    (pointerTo 1 (VStruct [mkField "A" "" true (VString "1")]))
  = Template_Expand exampleRuntime
      (mkTemplate "{A}" [zeroPart;
         mkPart "" [mkTerm "A" false 0] "" "," false "" false; zeroPart])
      (VMap [("A", VString "1")]).
Proof.
  apply (Template_Expand_struct exampleRuntime
           (mkTemplate "{A}" [zeroPart;
              mkPart "" [mkTerm "A" false 0] "" "," false "" false; zeroPart])
           1 [mkField "A" "" true (VString "1")] [("A", VString "1")]).
  - reflexivity.
  - intros k. cbn. destruct (String.eqb k "A"); reflexivity.
Defined.

Lemma allBytes_impl (p q : ascii -> bool) (s : string) :
  (forall c, p c = true -> q c = true) ->
  allBytes p s = true -> allBytes q s = true.
Proof.
  intros Hpq. induction s as [|c s IH]; [reflexivity|].
  cbn [allBytes]. intros H. apply andb_prop in H. destruct H as [Hc Hs].
  rewrite (Hpq c Hc), (IH Hs). reflexivity.
Qed.

Lemma allBytes_take (p : ascii -> bool) (n : nat) (s : string) :
  allBytes p s = true -> allBytes p (Strings.take n s) = true.
Proof.
  revert s. induction n as [|n IH]; intros [|c s] H; try reflexivity.
  cbn [Strings.take allBytes] in *. apply andb_prop in H.
  destruct H as [-> Hs]. apply IH. exact Hs.
Qed.

Lemma escape_safe (s : string) (allowReserved : bool) :
  allBytes safeByte (escape s allowReserved) = true.
Proof.
  rewrite escape_encode. induction s as [|c s IH]; [reflexivity|].
  cbn [Spec.encode]. rewrite allBytes_app, IH, andb_true_r.
  destruct (Spec.allowed allowReserved c) eqn:Hc.
  - cbn [allBytes]. rewrite andb_true_r. unfold safeByte.
    destruct allowReserved; [rewrite Hc; reflexivity|].
    unfold Spec.allowed in *. cbn [andb] in Hc. rewrite orb_false_r in Hc.
    rewrite Hc. reflexivity.
  - unfold safeByte. each_byte c; reflexivity.
Qed.

Section SafeBytes.

Context (rt : Runtime) (t : templatePart).
Hypothesis Hsep : allBytes safeByte (sep t) = true.
Hypothesis Hifemp : allBytes safeByte (ifemp t) = true.

Ltac safe_app :=
  repeat (rewrite allBytes_app; apply andb_true_intro; split);
  try assumption; try apply escape_safe; try reflexivity.

Lemma expandName_safe (buf n : string) (e : bool) :
  allBytes safeByte buf = true -> allBytes safeByte n = true ->
  allBytes safeByte (expandName t buf n e) = true.
Proof.
  intros Hb Hn. unfold expandName. destruct (named t); [|exact Hb].
  destruct e; safe_app.
Qed.

Lemma expandString_safe (buf : string) (term : templateTerm) (s : string) :
  allBytes safeByte buf = true -> allBytes safeByte (name term) = true ->
  allBytes safeByte (expandString t buf term s) = true.
Proof.
  intros Hb Hn. unfold expandString. rewrite allBytes_app.
  rewrite expandName_safe, escape_safe by assumption. reflexivity.
Qed.

Lemma expandArrayLoop_safe (term : templateTerm) (a : list value) :
  allBytes safeByte (name term) = true ->
  forall i buf,
    allBytes safeByte buf = true ->
    allBytes safeByte (expandArrayLoop rt t term i a buf) = true.
Proof.
  intros Hn. induction a as [|v a IH]; intros i buf Hb; [exact Hb|].
  cbn [expandArrayLoop]. cbv zeta. apply IH.
  rewrite allBytes_app, escape_safe, andb_true_r.
  assert (Hb' : allBytes safeByte
    (if explode term && Nat.ltb 0 i then buf ++ sep t
     else if Nat.ltb 0 i then buf ++ "," else buf) = true).
  { destruct (explode term && Nat.ltb 0 i); [safe_app|].
    destruct (Nat.ltb 0 i); [safe_app | exact Hb]. }
  destruct (named t && explode term); [|exact Hb'].
  apply expandName_safe; assumption.
Qed.

Lemma expandArray_safe (buf : string) (term : templateTerm)
    (a : list value) :
  allBytes safeByte buf = true -> allBytes safeByte (name term) = true ->
  allBytes safeByte (expandArray rt t buf term a) = true.
Proof.
  intros Hb Hn. unfold expandArray.
  destruct (Nat.eqb (List.length a) 0); [exact Hb|].
  apply expandArrayLoop_safe; [exact Hn|].
  destruct (negb (explode term)); [|exact Hb].
  apply expandName_safe; assumption.
Qed.

Lemma expandMapLoop_safe (term : templateTerm) (m : gomap) :
  forall firstLen buf,
    allBytes safeByte buf = true ->
    allBytes safeByte (expandMapLoop rt t term firstLen m buf) = true.
Proof.
  induction m as [|[k v] m IH]; intros firstLen buf Hb; [exact Hb|].
  cbn [expandMapLoop]. cbv zeta. apply IH.
  assert (Hb' : allBytes safeByte
    (if negb (Nat.eqb firstLen (String.length buf))
     then if explode term then buf ++ sep t else buf ++ ","
     else buf) = true).
  { destruct (negb _); [|exact Hb]. destruct (explode term); safe_app. }
  destruct (explode term); safe_app.
Qed.

Lemma expandMap_safe (buf : string) (term : templateTerm) (m : gomap) :
  allBytes safeByte buf = true -> allBytes safeByte (name term) = true ->
  allBytes safeByte (expandMap rt t buf term m) = true.
Proof.
  intros Hb Hn. unfold expandMap.
  destruct (Nat.eqb (List.length m) 0); [exact Hb|].
  apply expandMapLoop_safe.
  destruct (negb (explode term)); [|exact Hb].
  apply expandName_safe; assumption.
Qed.

Lemma expandValue_safe (firstLen : nat) (term : templateTerm) (v : value)
    (buf b : string) (err : option error) :
  expandValue rt t firstLen term v buf = Ret (b, err) ->
  allBytes safeByte buf = true -> allBytes safeByte (name term) = true ->
  allBytes safeByte b = true.
Proof.
  intros H Hb Hn. unfold expandValue in H.
  set (buf' := if negb (Nat.eqb (String.length buf) firstLen)
               then buf ++ sep t else buf) in H.
  assert (Hb' : allBytes safeByte buf' = true).
  { unfold buf'. destruct (negb _); [safe_app | exact Hb]. }
  assert (Hmap : forall m,
    (if (0 <? truncate term)%Z
     then Ret (buf', Some ErrTruncateMap)
     else Ret (expandMap rt t buf' term m, None)) = Ret (b, err) ->
    allBytes safeByte b = true).
  { intros m. destruct (0 <? truncate term)%Z; intros [= <- _];
      [exact Hb' | apply expandMap_safe; assumption]. }
  destruct v as [|s|a|m|fields|p|text];
    try match type of H with
    | context [struct2map rt ?v] =>
        destruct (struct2map rt v) as [[m|]|]; cbn [bind] in H
    end; try discriminate; try (apply (Hmap _ H));
    injection H as <- _;
    first [apply expandString_safe | apply expandArray_safe]; assumption.
Qed.

Lemma expandTerms_safe (values : gomap) (firstLen : nat)
    (ts : list templateTerm) :
  forallb (fun term => allBytes safeByte (name term)) ts = true ->
  forall buf b err,
    expandTerms rt t firstLen ts values buf = Ret (b, err) ->
    allBytes safeByte buf = true -> allBytes safeByte b = true.
Proof.
  induction ts as [|term rest IH]; intros Hts buf b err H Hb.
  - cbn in H. injection H as <- _. exact Hb.
  - cbn [forallb] in Hts. apply andb_prop in Hts. destruct Hts as [Hn Hr].
    cbn [expandTerms] in H.
    destruct (map_get (name term) values) as [v|]; [|apply (IH Hr _ _ _ H Hb)].
    destruct (expandValue rt t firstLen term v buf) as [[b' [e|]]|] eqn:Hv;
      cbn [bind] in H; try discriminate.
    + injection H as <- _. apply (expandValue_safe _ _ _ _ _ _ Hv Hb Hn).
    + apply (IH Hr _ _ _ H). apply (expandValue_safe _ _ _ _ _ _ Hv Hb Hn).
Qed.

End SafeBytes.

Lemma nameByte_safe (c : ascii) : nameByte c = true -> safeByte c = true.
Proof. each_byte c; cbn; intros; congruence. Qed.

Lemma operator_safe (c : ascii) :
  allBytes safeByte (first (fst (operator c))) = true /\
  allBytes safeByte (sep (fst (operator c))) = true /\
  allBytes safeByte (ifemp (fst (operator c))) = true.
Proof. each_byte c; repeat split. Qed.

(** X28.  The expansion of an expression that [parseExpression] accepted holds
    only bytes of the reserved-allowed set and the [%] of triplets,
    whatever the values of the environment are: every other byte of a
    value is percent-encoded, and the prefix, the separators and the names
    are of the set. *)
Theorem expression_output_safe (rt : Runtime) (e : string)
    (p : templatePart) (values : gomap) (s : string) (err : option error) :
  parseExpression e = Ret (p, None) ->
  expand rt p "" values = Ret (s, err) ->
  allBytes safeByte s = true.
Proof.
  intros Hparse Hexpand.
  destruct (parseExpression_no_error e p Hparse) as (Hraw & _ & Hterms).
  destruct e as [|c rest]; [discriminate|].
  destruct (parseExpression_returns c rest) as (ts & err' & Hret).
  rewrite Hret in Hparse. injection Hparse as <- _.
  destruct (operator_safe c) as (Hfirst & Hsep & Hifemp).
  cbn [set_terms raw terms first sep ifemp] in *.
  unfold expand in Hexpand. cbn [set_terms raw terms first] in Hexpand.
  rewrite Hraw in Hexpand. cbn [String.length Nat.ltb Nat.leb] in Hexpand.
  cbv zeta in Hexpand.
  match type of Hexpand with
  | context [expandTerms rt ?q ?fl ?l values ?b0] =>
      destruct (expandTerms rt q fl l values b0) as [[b [e'|]]|] eqn:Ht
  end; cbn [bind] in Hexpand; try discriminate.
  all: assert (Hb : allBytes safeByte b = true);
    [ apply (expandTerms_safe rt (set_terms ts (fst (operator c)))
               Hsep Hifemp) in Ht;
      [ exact Ht
      | rewrite forallb_forall in *; intros term Hin;
        specialize (Hterms term Hin); unfold wellFormedTerm in Hterms;
        apply andb_prop in Hterms; destruct Hterms as [Hname _];
        apply (allBytes_impl nameByte); [apply nameByte_safe|];
        apply validname_bytes; exact Hname
      | exact Hfirst ]
    | ].
  - injection Hexpand as <- _. exact Hb.
  - destruct (Nat.eqb _ _); injection Hexpand as <- _;
      first [exact Hb | reflexivity | apply allBytes_take; exact Hb].
Qed.

Lemma expression_output_safe_witness :
  allBytes safeByte "?q=%C3%A9a&l=1,2" = true.
Proof.
  apply (expression_output_safe exampleRuntime "?q,l"
           (mkPart "" [mkTerm "q" false 0; mkTerm "l" false 0]
                   "?" "&" true "=" false)
           [("q", VString e_acute_a); ("l", VArray [VOther "1"; VOther "2"])]
           "?q=%C3%A9a&l=1,2" None);
    vm_compute; reflexivity.
Defined.
